(** * HanSign Architect: the signature pad's stroke engine

    A shallow embedding of [src/components/SignaturePad.tsx], of the geometry
    helpers it imports from [utils/geometry] and of the data types of
    [src/types.ts].

    Numbers.  A JavaScript [number] is read as a real number: the engine's
    arithmetic is modelled exactly, without rounding, overflow or NaN.  The
    one place where the code relies on a falsy number ([p.pressure || 0.5])
    is modelled by a test against [0] and against absence.

    Effects.  The component keeps React state ([strokes], [currentStroke]),
    mutable refs ([isDrawing], [lastPoint], [lastVelocity], [lastWidth]), a
    2D canvas context and the callbacks it registered with
    [requestAnimationFrame].  All of these are fields of one record, [Pad],
    which every handler takes and returns.  The canvas is assumed to be
    mounted.

    Rendering.  A state setter changes the state at once, but a handler
    reads a state variable through the closure of the render that created
    it.  React renders synchronously after a discrete event (pointer-down,
    pointer-up, a click on clear) and later, at a time of its choosing,
    after a pointer-move.  The only state variable that a pointer-move
    changes and a handler reads is [currentStroke]; the pad therefore also
    keeps [renderedStroke], the [currentStroke] of the latest render. *)

From Stdlib Require Import Reals Lra List String Ascii ZArith Bool Lia.
Import ListNotations.

Open Scope R_scope.

(** ** Data model ([src/types.ts]) *)

Record Point := mkPoint {
  x : R;
  y : R;
  pressure : option R;           (* pressure?: number *)
  time : R;
  pointerType : option string    (* pointerType?: string, 'mouse' | 'pen' | 'touch' *)
}.

Definition Stroke := list Point.

Inductive ToolType := pen | pencil | calligraphy.

Record DrawingOptions := mkOptions {
  color : string;
  minWidth : R;
  maxWidth : R;
  smoothing : R;
  streamline : R;
  tool : ToolType
}.

Definition isPencil (t : ToolType) : bool :=
  match t with pencil => true | _ => false end.

(** [v || d] on an optional number: [undefined] and [0] are falsy. *)
Definition orDefault (v : option R) (d : R) : R :=
  match v with
  | Some r => if Req_dec_T r 0 then d else r
  | None => d
  end.

(** [t === 'pen'] on an optional string. *)
Definition isPenPointer (t : option string) : bool :=
  match t with
  | Some s => String.eqb s "pen"
  | None => false
  end.

(** ** Geometry helpers ([utils/geometry]) *)

Module Geometry.

Definition getDistance (p1 p2 : Point) : R :=
  sqrt ((x p1 - x p2) ^ 2 + (y p1 - y p2) ^ 2).

Definition getVelocity (p1 p2 : Point) : R :=
  let dist := getDistance p1 p2 in
  let t := time p2 - time p1 in
  if Rlt_dec 0 t then dist / t else 0.

Definition lerp (start e t : R) : R :=
  start * (1 - t) + e * t.

Definition getMidPoint (p1 p2 : Point) : Point :=
  {| x := x p1 + (x p2 - x p1) / 2;
     y := y p1 + (y p2 - y p1) / 2;
     time := time p1 + (time p2 - time p1) / 2;
     pressure :=
       Some (orDefault (pressure p1) 0.5
             + (orDefault (pressure p2) 0.5 - orDefault (pressure p1) 0.5) / 2);
     pointerType := pointerType p1 |}.

End Geometry.

Import Geometry.

(** ** The canvas *)

(** [parseInt(s, 16)]: leading white space is skipped, then an optional
    sign, then an optional [0x] prefix, then the longest run of hexadecimal
    digits; [None] stands for [NaN]. *)

Definition hexDigit (c : ascii) : option Z :=
  let n := Z.of_nat (nat_of_ascii c) in
  if ((48 <=? n) && (n <=? 57))%Z then Some (n - 48)%Z
  else if ((97 <=? n) && (n <=? 102))%Z then Some (n - 87)%Z
  else if ((65 <=? n) && (n <=? 70))%Z then Some (n - 55)%Z
  else None.

Definition isWhiteSpace (c : ascii) : bool :=
  let n := nat_of_ascii c in
  ((n =? 32) || ((9 <=? n) && (n <=? 13)))%nat.

Fixpoint skipWhiteSpace (s : string) : string :=
  match s with
  | String c s' => if isWhiteSpace c then skipWhiteSpace s' else s
  | EmptyString => s
  end.

Fixpoint hexDigits (acc : option Z) (s : string) : option Z :=
  match s with
  | String c s' =>
      match hexDigit c with
      | Some d =>
          hexDigits (Some (match acc with Some a => a * 16 + d | None => d end)%Z) s'
      | None => acc
      end
  | EmptyString => acc
  end.

Definition stripHexPrefix (s : string) : string :=
  match s with
  | String "0" (String "x" s') => s'
  | String "0" (String "X" s') => s'
  | _ => s
  end.

Definition parseInt16 (s : string) : option Z :=
  match skipWhiteSpace s with
  | String "-" s' => option_map Z.opp (hexDigits None (stripHexPrefix s'))
  | String "+" s' => hexDigits None (stripHexPrefix s')
  | s' => hexDigits None (stripHexPrefix s')
  end.

(** [s.slice(a, b)] for [0 <= a <= b]. *)
Definition slice (a b : nat) (s : string) : string :=
  String.substring a (b - a) s.

(** The value assigned to [ctx.strokeStyle]: either the configured colour
    string, or the template [rgba(r, g, b, alpha)] with its four holes. *)
Inductive StrokeStyle :=
| CssColor (c : string)
| CssRgba (r g b : option Z) (alpha : R).

(** One stroked path: [beginPath], [moveTo], [quadraticCurveTo], [stroke]
    under the [lineWidth] and [strokeStyle] set just before. *)
Record Segment := mkSegment {
  lineWidth : R;
  strokeStyle : StrokeStyle;
  moveTo : R * R;
  controlPoint : R * R;
  endPoint : R * R
}.

(** A [drawNext] closure waiting in [requestAnimationFrame]: the variables
    it closes over. *)
Record Animation := mkAnimation {
  animOptions : DrawingOptions;
  allStrokes : list Stroke;
  strokeIdx : nat;
  pointIdx : nat
}.

(** ** Component state *)

Record Pad := mkPad {
  strokes : list Stroke;
  currentStroke : Stroke;
  isDrawing : bool;
  lastPoint : option Point;
  lastVelocity : R;
  lastWidth : R;
  canvas : list Segment;     (* what has been stroked since the last clearRect *)
  frames : list Animation;   (* callbacks registered for the next animation frame *)
  renderedStroke : Stroke    (* currentStroke as the handlers' closures see it *)
}.

Definition setStrokes (v : list Stroke) (s : Pad) : Pad :=
  mkPad v (currentStroke s) (isDrawing s) (lastPoint s) (lastVelocity s)
        (lastWidth s) (canvas s) (frames s)
        (renderedStroke s).

Definition setCurrentStroke (v : Stroke) (s : Pad) : Pad :=
  mkPad (strokes s) v (isDrawing s) (lastPoint s) (lastVelocity s)
        (lastWidth s) (canvas s) (frames s)
        (renderedStroke s).

Definition setIsDrawing (v : bool) (s : Pad) : Pad :=
  mkPad (strokes s) (currentStroke s) v (lastPoint s) (lastVelocity s)
        (lastWidth s) (canvas s) (frames s)
        (renderedStroke s).

Definition setLastPoint (v : option Point) (s : Pad) : Pad :=
  mkPad (strokes s) (currentStroke s) (isDrawing s) v (lastVelocity s)
        (lastWidth s) (canvas s) (frames s)
        (renderedStroke s).

Definition setLastVelocity (v : R) (s : Pad) : Pad :=
  mkPad (strokes s) (currentStroke s) (isDrawing s) (lastPoint s) v
        (lastWidth s) (canvas s) (frames s)
        (renderedStroke s).

Definition setLastWidth (v : R) (s : Pad) : Pad :=
  mkPad (strokes s) (currentStroke s) (isDrawing s) (lastPoint s)
        (lastVelocity s) v (canvas s) (frames s)
        (renderedStroke s).

(** [ctx.stroke()] *)
Definition stroke (g : Segment) (s : Pad) : Pad :=
  mkPad (strokes s) (currentStroke s) (isDrawing s) (lastPoint s)
        (lastVelocity s) (lastWidth s) (canvas s ++ [g]) (frames s)
        (renderedStroke s).

(** [ctx.clearRect] over the whole surface *)
Definition clearRect (s : Pad) : Pad :=
  mkPad (strokes s) (currentStroke s) (isDrawing s) (lastPoint s)
        (lastVelocity s) (lastWidth s) [] (frames s)
        (renderedStroke s).

Definition requestAnimationFrame (a : Animation) (s : Pad) : Pad :=
  mkPad (strokes s) (currentStroke s) (isDrawing s) (lastPoint s)
        (lastVelocity s) (lastWidth s) (canvas s) (frames s ++ [a])
        (renderedStroke s).

Definition takeFrames (s : Pad) : Pad :=
  mkPad (strokes s) (currentStroke s) (isDrawing s) (lastPoint s)
        (lastVelocity s) (lastWidth s) (canvas s) []
        (renderedStroke s).

Definition setRenderedStroke (v : Stroke) (s : Pad) : Pad :=
  mkPad (strokes s) (currentStroke s) (isDrawing s) (lastPoint s)
        (lastVelocity s) (lastWidth s) (canvas s) (frames s) v.

(** A render: the handlers it creates close over the current state. *)
Definition render (s : Pad) : Pad :=
  setRenderedStroke (currentStroke s) s.

(** The state of a freshly mounted component. *)
Definition initialPad (options : DrawingOptions) : Pad :=
  mkPad [] [] false None 0 (maxWidth options) [] [] [].

(** ** Width model and curve renderer ([drawCurve]) *)

Section Renderer.

Variable options : DrawingOptions.

(** The tool specific part of [drawCurve]: the width aimed at for the
    segment whose older points are [p1] and [p2]. *)
Definition targetWidth (p1 p2 : Point) : R :=
  match tool options with
  | pencil => Rmax 0.5 (maxWidth options * 0.4)
  | calligraphy =>
      let dist := getDistance p1 p2 in
      let velocity := dist / (time p2 - time p1 + 1) in
      if isPenPointer (pointerType p2) then
        let pressure := orDefault (pressure p2) 0.5 in
        minWidth options
        + (maxWidth options * 1.5 - minWidth options) * pressure ^ 2
      else
        let maxSpeed := 3.5 in
        let normalizedSpeed := Rmin velocity maxSpeed / maxSpeed in
        maxWidth options * 1.5
        - normalizedSpeed * (maxWidth options * 1.5 - minWidth options * 0.5)
  | pen =>
      if isPenPointer (pointerType p2) then
        let pressure := orDefault (pressure p2) 0.5 in
        let targetWidth :=
          minWidth options + (maxWidth options - minWidth options) * pressure in
        targetWidth * 1.1
      else
        let dist := getDistance p1 p2 in
        let velocity := dist / (time p2 - time p1 + 1) in
        let maxSpeed := 2.5 in
        let normalizedSpeed := Rmin velocity maxSpeed / maxSpeed in
        maxWidth options
        - normalizedSpeed * (maxWidth options - minWidth options)
  end.

(** The opacity variable of [drawCurve]. *)
Definition alpha : R :=
  if isPencil (tool options) then 0.7 else 1.0.

Definition smoothingFactor : R :=
  if isPencil (tool options) then 0.2 else 0.6.

(** The "Handle Color & Opacity" part of [drawCurve]. *)
Definition curveStyle : StrokeStyle :=
  if isPencil (tool options) then
    let r := parseInt16 (slice 1 3 (color options)) in
    let g := parseInt16 (slice 3 5 (color options)) in
    let b := parseInt16 (slice 5 7 (color options)) in
    CssRgba r g b alpha
  else CssColor (color options).

Definition drawCurve (points : list Point) (s : Pad) : Pad :=
  if (List.length points <? 3)%nat then s else
  match nth_error points (List.length points - 3),
        nth_error points (List.length points - 2),
        nth_error points (List.length points - 1) with
  | Some p1, Some p2, Some p3 =>
      let mid1 := getMidPoint p1 p2 in
      let mid2 := getMidPoint p2 p3 in
      let width :=
        lastWidth s * smoothingFactor
        + targetWidth p1 p2 * (1 - smoothingFactor) in
      stroke {| lineWidth := width;
                strokeStyle := curveStyle;
                moveTo := (x mid1, y mid1);
                controlPoint := (x p2, y p2);
                endPoint := (x mid2, y mid2) |}
             (setLastWidth width s)
  | _, _, _ => s
  end.

(** ** Pointer handlers *)

(** [point] is what [getPoint(e)] returns; it carries [e.pressure] and
    [e.pointerType].  Pointer-down is a discrete event: the render that
    follows it is part of the step, so the next handlers see [[point]]. *)
Definition handlePointerDown (point : Point) (s : Pad) : Pad :=
  let s := setIsDrawing true s in
  let s := setLastPoint (Some point) s in
  let s := setCurrentStroke [point] s in
  let s := setRenderedStroke [point] s in
  let s := setLastVelocity 0 s in
  if isPencil (tool options) then
    setLastWidth (maxWidth options * 0.5) s
  else if isPenPointer (pointerType point) then
    setLastWidth
      (minWidth options
       + (maxWidth options - minWidth options) * orDefault (pressure point) 0.5) s
  else
    setLastWidth ((minWidth options + maxWidth options) / 2) s.

Definition effectiveStreamline : R :=
  if isPencil (tool options) then streamline options * 0.5
  else streamline options.

(** The stabilizer of [handlePointerMove]: the point after its coordinates
    have been overwritten. *)
Definition stabilize (last : option Point) (point : Point) : Point :=
  match last with
  | Some lp =>
      if Rlt_dec 0 effectiveStreamline then
        {| x := lerp (x lp) (x point) (1 - effectiveStreamline);
           y := lerp (y lp) (y point) (1 - effectiveStreamline);
           pressure := pressure point;
           time := time point;
           pointerType := pointerType point |}
      else point
  | None => point
  end.

(** The update of [currentStroke] goes through a functional updater, which
    receives the current state; the render that shows it comes later
    ([render]). *)
Definition handlePointerMove (raw : Point) (s : Pad) : Pad :=
  if negb (isDrawing s) then s else
  let point := stabilize (lastPoint s) raw in
  let newStroke := currentStroke s ++ [point] in
  let s := drawCurve newStroke s in
  let s := setCurrentStroke newStroke s in
  setLastPoint (Some point) s.

(** Also the handler of pointer-leave.  The stroke it commits is the
    [currentStroke] of its closure, that of the latest render; the render
    that follows this discrete event shows the empty active stroke. *)
Definition handlePointerUp (s : Pad) : Pad :=
  if negb (isDrawing s) then s else
  let s := setIsDrawing false s in
  let s := setStrokes (strokes s ++ [renderedStroke s]) s in
  let s := setCurrentStroke [] s in
  let s := setRenderedStroke [] s in
  setLastPoint None s.

End Renderer.

(** ** Replay ([animateDrawing]) *)

(** One run of the [drawNext] closure [a].  The [drawCurve] it calls is the
    one of the render in which [replay] was called, so it draws under the
    options captured then. *)
Definition drawNext (a : Animation) (s : Pad) : Pad :=
  if (List.length (allStrokes a) <=? strokeIdx a)%nat then s else
  let stroke := nth (strokeIdx a) (allStrokes a) [] in
  if (Z.of_nat (pointIdx a) <? Z.of_nat (List.length stroke) - 1)%Z then
    let subStroke := firstn (pointIdx a + 3) stroke in
    let s := drawCurve (animOptions a) subStroke s in
    requestAnimationFrame
      (mkAnimation (animOptions a) (allStrokes a) (strokeIdx a) (pointIdx a + 1)) s
  else
    requestAnimationFrame
      (mkAnimation (animOptions a) (allStrokes a) (strokeIdx a + 1) 0) s.

Definition animateDrawing (options : DrawingOptions) (allStrokes : list Stroke)
    (s : Pad) : Pad :=
  let s := clearRect s in
  drawNext (mkAnimation options allStrokes 0 0) s.

(** One animation frame: the callbacks registered so far run in order; what
    they register in turn waits for the next frame. *)
Definition animationFrame (s : Pad) : Pad :=
  fold_left (fun s a => drawNext a s) (frames s) (takeFrames s).

(** ** The imperative handle *)

(** [clear], with the render that follows it; the effect that wipes the
    canvas again once both state variables are empty is subsumed by the
    [clearRect] done here. *)
Definition clear (s : Pad) : Pad :=
  let s := setStrokes [] s in
  let s := setCurrentStroke [] s in
  let s := setRenderedStroke [] s in
  clearRect s.

(** [isEmpty] reads both state variables through the closure of the latest
    render; [strokes] changes in discrete events only, so its rendered
    value is its current one. *)
Definition isEmpty (s : Pad) : bool :=
  ((List.length (strokes s) =? 0) && (List.length (renderedStroke s) =? 0))%nat.

Definition replay (options : DrawingOptions) (s : Pad) : Pad :=
  animateDrawing options (strokes s) s.

(** ** Vector export ([generateSVG]) *)

(** [v.toFixed(2)], as the number the printed decimal denotes: the nearest
    multiple of a hundredth, a tie going away from zero. *)
Definition toFixed2 (v : R) : R :=
  if Rlt_dec v 0 then - (IZR (Int_part (- v * 100 + / 2)) / 100)
  else IZR (Int_part (v * 100 + / 2)) / 100.

(** A command of the path data [d]. *)
Inductive PathCommand :=
| M (px py : R)
| L (px py : R).

(** A [<path>] element; [fill], [stroke-linecap] and [stroke-linejoin] are
    the constants [none], [round] and [round]. *)
Record SvgPath := mkSvgPath {
  d : list PathCommand;
  pathStroke : string;
  strokeOpacity : R;
  strokeWidth : R
}.

Record Svg := mkSvg {
  svgWidth : R;
  svgHeight : R;
  paths : list SvgPath
}.

Definition origin : Point := mkPoint 0 0 None 0 None.

(** The body of the [forEach] callback: the path of one stroke, or nothing
    when the callback returns early. *)
Definition strokePath (options : DrawingOptions) (stroke : Stroke) : list SvgPath :=
  if (List.length stroke <? 2)%nat then [] else
  let p0 := nth 0 stroke origin in
  let d0 := [M (toFixed2 (x p0)) (toFixed2 (y p0))] in
  (* for (let i = 1; i < stroke.length - 1; i++) *)
  let d1 :=
    d0 ++ map (fun i => let p1 := nth i stroke origin in
                        L (toFixed2 (x p1)) (toFixed2 (y p1)))
              (seq 1 (List.length stroke - 2)) in
  let pl := nth (List.length stroke - 1) stroke origin in
  let d2 := d1 ++ [L (toFixed2 (x pl)) (toFixed2 (y pl))] in
  let strokeOpacity := if isPencil (tool options) then 0.7 else 1 in
  let strokeWidth :=
    if isPencil (tool options) then maxWidth options * 0.5 else maxWidth options in
  [mkSvgPath d2 (color options) strokeOpacity strokeWidth].

(** [dpr] is [window.devicePixelRatio || 1]. *)
Definition generateSVG (options : DrawingOptions) (dpr : R)
    (strokes : list Stroke) (width height : R) : Svg :=
  mkSvg (width / dpr) (height / dpr) (flat_map (strokePath options) strokes).

(** ** The pad as a transition system *)

Inductive Format := png | svg.

(** [PointerMove] is a pointer-move that React has rendered before the next
    event arrives; [PointerMovePending] is one whose update is still
    waiting for its render, which comes with [Render] or with a later
    event. *)
Inductive Event :=
| PointerDown (point : Point)
| PointerMove (point : Point)
| PointerUp
| PointerLeave
| ClearRequest
| ReplayRequest
| DownloadRequest (format : Format)
| AnimationFrameTick
| OptionsChange (options : DrawingOptions)
| PointerMovePending (point : Point)
| Render.

(** The component together with the [options] prop of its latest render. *)
Definition System := (DrawingOptions * Pad)%type.

Definition step (sys : System) (e : Event) : System :=
  let (options, s) := sys in
  match e with
  | PointerDown point => (options, handlePointerDown options point s)
  | PointerMove point => (options, render (handlePointerMove options point s))
  | PointerMovePending point => (options, handlePointerMove options point s)
  | Render => (options, render s)
  | PointerUp | PointerLeave => (options, handlePointerUp s)
  | ClearRequest => (options, clear s)
  | ReplayRequest => (options, replay options s)
  | DownloadRequest _ => (options, s)
  | AnimationFrameTick => (options, animationFrame s)
  | OptionsChange options' => (options', s)
  end.

Definition run (sys : System) (events : list Event) : System :=
  fold_left step events sys.

Definition mounted (options : DrawingOptions) : System :=
  (options, initialPad options).

(** A state the component can be in. *)
Definition reachable (sys : System) : Prop :=
  exists options events, sys = run (mounted options) events.

(** [n] animation frames in a row. *)
Fixpoint animationFrames (n : nat) (s : Pad) : Pad :=
  match n with
  | O => s
  | S n' => animationFrames n' (animationFrame s)
  end.

(** ** Sample data and reference definitions *)

Definition defaultOptions : DrawingOptions :=
  mkOptions "#000000" 1.5 2.5 0.5 0.6 pen.

Definition mouseAt (px py t : R) : Point :=
  mkPoint px py (Some 0.5) t (Some "mouse"%string).

Definition penAt (px py p t : R) : Point :=
  mkPoint px py (Some p) t (Some "pen"%string).

Definition drawingPad : Pad :=
  handlePointerDown defaultOptions (mouseAt 10 10 0) (initialPad defaultOptions).

Definition pencilOptions : DrawingOptions :=
  mkOptions "#1a2B3c" 1.5 2.5 0.5 0.6 pencil.

Definition thinPencil : DrawingOptions :=
  mkOptions "#000000" 1.5 1.5 0.5 0.6 pencil.

(** The sample [p] with its pressure replaced. *)
Definition withPressure (v : option R) (p : Point) : Point :=
  mkPoint (x p) (y p) v (time p) (pointerType p).

(** The path the export is meant to emit for a stroke: a move to its first
    sample, then a line to every later sample in order, under one width and
    one opacity. *)
Definition pathOf (options : DrawingOptions) (stroke : Stroke) : SvgPath :=
  let commands :=
    match stroke with
    | p0 :: rest =>
        M (toFixed2 (x p0)) (toFixed2 (y p0))
        :: map (fun p => L (toFixed2 (x p)) (toFixed2 (y p))) rest
    | [] => []
    end in
  match tool options with
  | pencil => mkSvgPath commands (color options) 0.7 (maxWidth options * 0.5)
  | _ => mkSvgPath commands (color options) 1 (maxWidth options)
  end.

(** A recorded pressure lies in [0,1]. *)
Definition pressureInRange (p : Point) : Prop :=
  match pressure p with
  | Some v => 0 <= v <= 1
  | None => True
  end.

(** Sample times do not decrease along the list. *)
Fixpoint chronological (l : list Point) : Prop :=
  match l with
  | a :: (b :: _) as rest => time a <= time b /\ chronological rest
  | _ => True
  end.

(** The interval the widths of a stroke stay in: for the pen and the
    calligraphy tool the one of the specification, for the pencil the
    interval between the initial guess and the constant target. *)
Definition widthFloor (options : DrawingOptions) : R :=
  match tool options with
  | pencil => Rmin (maxWidth options * 0.5) (Rmax 0.5 (maxWidth options * 0.4))
  | _ => Rmin (minWidth options) (minWidth options * 0.5)
  end.

Definition widthCeiling (options : DrawingOptions) : R :=
  match tool options with
  | pencil => Rmax (maxWidth options * 0.5) (Rmax 0.5 (maxWidth options * 0.4))
  | _ => maxWidth options * 1.5
  end.

(** The capture of one stroke: pointer-down at [p0], then one pointer-move
    per raw sample. *)
Definition captureStroke (options : DrawingOptions) (p0 : Point)
    (moves : list Point) (s : Pad) : Pad :=
  fold_left (fun s raw => handlePointerMove options raw s) moves
            (handlePointerDown options p0 s).

(** Pointer-moves that reach the pad without a render in between. *)
Definition capturePending (options : DrawingOptions) (pending : list Point)
    (s : Pad) : Pad :=
  fold_left (fun s raw => handlePointerMove options raw s) pending s.

(** [a] and [b] agree on everything a replay reads or writes, and [a] has
    the segments [pre] on its canvas before those of [b]. *)
Definition sameInk (pre : list Segment) (a b : Pad) : Prop :=
  lastWidth a = lastWidth b /\
  frames a = frames b /\
  canvas a = pre ++ canvas b.

(** What holds of the pad while one stroke is captured on top of the canvas
    of [base]: [painted] is what the stroke has painted so far and [lp] the
    last accepted point. *)
Definition capturing (options : DrawingOptions) (painted : list Segment)
    (base : Pad) (lp : Point) (s : Pad) : Prop :=
  isDrawing s = true /\
  widthFloor options <= lastWidth s <= widthCeiling options /\
  canvas s = canvas base ++ painted /\
  Forall (fun g => widthFloor options <= lineWidth g <= widthCeiling options)
         painted /\
  chronological (currentStroke s) /\
  Forall pressureInRange (currentStroke s) /\
  lastPoint s = Some lp /\
  exists pre, currentStroke s = pre ++ [lp].

(** ** Reference definitions for the capture and the replay of strokes *)

(** The sliding windows of three consecutive samples of a stroke, oldest
    first. *)
Fixpoint windows (l : list Point) : list (Point * Point * Point) :=
  match l with
  | p1 :: ((p2 :: p3 :: _) as rest) => (p1, p2, p3) :: windows rest
  | _ => []
  end.

(** The geometry of the quadratic curve over one window. *)
Definition curveOf (w : Point * Point * Point) : (R * R) * (R * R) * (R * R) :=
  let '(p1, p2, p3) := w in
  ((x (getMidPoint p1 p2), y (getMidPoint p1 p2)),
   (x p2, y p2),
   (x (getMidPoint p2 p3), y (getMidPoint p2 p3))).

Definition geometryOf (g : Segment) : (R * R) * (R * R) * (R * R) :=
  (moveTo g, controlPoint g, endPoint g).

(** Every segment starts where the one before it ends. *)
Fixpoint chained (l : list Segment) : Prop :=
  match l with
  | g :: ((g' :: _) as rest) => endPoint g = moveTo g' /\ chained rest
  | _ => True
  end.

(** The animation frames a replay of [ss] needs after the call of
    [replay], and the segments it strokes. *)
Fixpoint replayFrames (ss : list Stroke) : nat :=
  match ss with
  | [] => 0
  | st :: rest => (List.length st - 1) + 1 + replayFrames rest
  end.

Fixpoint replaySegments (ss : list Stroke) : nat :=
  match ss with
  | [] => 0
  | st :: rest =>
      (if (3 <=? List.length st)%nat then List.length st - 1 else 0)%nat
      + replaySegments rest
  end.

(** Frames still needed, and segments still stroked, once [drawNext] runs
    at stroke [i], point [j] of the strokes [ss]. *)
Definition framesFrom (ss : list Stroke) (i j : nat) : nat :=
  if (List.length ss <=? i)%nat then 0%nat
  else (List.length (nth i ss []) - 1 - j + 1 + replayFrames (skipn (S i) ss))%nat.

Definition segmentsFrom (ss : list Stroke) (i j : nat) : nat :=
  if (List.length ss <=? i)%nat then 0%nat
  else ((if (3 <=? List.length (nth i ss []))%nat
         then List.length (nth i ss []) - 1 - j else 0)
        + replaySegments (skipn (S i) ss))%nat.

(** ** The application shell ([App]): typed signatures *)

Module App.

Inductive Lang := en | ko.

Record FontDef := mkFont {
  name : string;
  family : string;
  lang : Lang
}.

Definition isKo (l : Lang) : bool :=
  match l with ko => true | en => false end.

(** A font of the table: its family is its quoted name followed by a
    generic family. *)
Definition quoteMark : string := String (ascii_of_nat 34) EmptyString.

Definition font (n generic : string) (l : Lang) : FontDef :=
  mkFont n (quoteMark ++ n ++ quoteMark ++ ", " ++ generic)%string l.

Definition SIGNATURE_FONTS : list FontDef :=
  [ font "Herr Von Muellerhoff" "cursive" en;
    font "Great Vibes" "cursive" en;
    font "Mrs Saint Delafield" "cursive" en;
    font "Alex Brush" "cursive" en;
    font "Pinyon Script" "cursive" en;
    font "Sacramento" "cursive" en;
    font "Nanum Pen Script" "cursive" ko;
    font "Nanum Brush Script" "cursive" ko;
    font "Gowun Batang" "serif" ko;
    font "Yeon Sung" "cursive" ko;
    font "East Sea Dokdo" "cursive" ko;
    font "Dokdo" "cursive" ko;
    font "Hi Melody" "cursive" ko;
    font "Gaegu" "cursive" ko;
    font "Gamja Flower" "cursive" ko;
    font "Single Day" "cursive" ko;
    font "Cute Font" "cursive" ko;
    font "Poor Story" "cursive" ko;
    font "Sunflower" "sans-serif" ko;
    font "Black And White Picture" "sans-serif" ko;
    font "Jua" "sans-serif" ko;
    font "Kirang Haerang" "display" ko;
    font "Song Myung" "serif" ko;
    font "Stylish" "sans-serif" ko;
    font "Dongle" "sans-serif" ko;
    font "Gugi" "display" ko;
    font "Do Hyeon" "sans-serif" ko;
    font "Gowun Dodum" "sans-serif" ko;
    font "Hahmlet" "serif" ko;
    font "Diphylleia" "serif" ko;
    font "Moirai One" "display" ko ].

Inductive DrawingMode := draw | type.

(** The typed text, as its sequence of UTF-16 code units. *)
Definition Text := list N.

Record State := mkState {
  mode : DrawingMode;
  textSignature : Text;
  currentFontIndex : nat;
  appOptions : DrawingOptions
}.

(** One code unit against the class of the regular expression of
    [isKorean]: the ranges U+3131..U+314E, U+314F..U+3163 and
    U+AC00..U+D7A3, and the bar U+007C that separates them inside the
    brackets. *)
Definition koreanClass (c : N) : bool :=
  (((12593 <=? c) && (c <=? 12622))
   || (c =? 124)
   || ((12623 <=? c) && (c <=? 12643))
   || (c =? 124)
   || ((44032 <=? c) && (c <=? 55203)))%N.

Definition isKorean (text : Text) : bool := existsb koreanClass text.

Definition availableFonts (text : Text) : list FontDef :=
  if (List.length text =? 0)%nat then SIGNATURE_FONTS
  else if isKorean text then filter (fun f => isKo (lang f)) SIGNATURE_FONTS
  else SIGNATURE_FONTS.

(** [availableFonts[currentFontIndex] || availableFonts[0]]; [None] stands
    for [undefined]. *)
Definition currentFont (st : State) : option FontDef :=
  match nth_error (availableFonts (textSignature st)) (currentFontIndex st) with
  | Some f => Some f
  | None => nth_error (availableFonts (textSignature st)) 0
  end.

(** [setTextSignature], followed by the effect that resets the font index
    when [isKorean] has changed. *)
Definition setTextSignature (text : Text) (st : State) : State :=
  mkState (mode st) text
          (if Bool.eqb (isKorean text) (isKorean (textSignature st))
           then currentFontIndex st else 0%nat)
          (appOptions st).

Definition handleRegenerateStyle (st : State) : State :=
  mkState (mode st) (textSignature st)
          ((currentFontIndex st + 1)
             mod List.length (availableFonts (textSignature st)))%nat
          (appOptions st).

(** [handleClear]; in draw mode the request goes to the pad and leaves the
    state of the shell as it is. *)
Definition handleClear (st : State) : State :=
  match mode st with
  | draw => st
  | type => setTextSignature [] st
  end.

Definition setMode (m : DrawingMode) (st : State) : State :=
  mkState m (textSignature st) (currentFontIndex st) (appOptions st).

Definition setOptions (o : DrawingOptions) (st : State) : State :=
  mkState (mode st) (textSignature st) (currentFontIndex st) o.

Definition initialState : State :=
  mkState draw [] 0 (mkOptions "#000000" 1.5 2.5 0.5 0.6 pen).

Inductive Event :=
| TypeText (text : Text)
| Clear
| Replay
| Download
| NextStyle
| SwitchMode (m : DrawingMode)
| ChangeOptions (o : DrawingOptions).

Definition step (st : State) (e : Event) : State :=
  match e with
  | TypeText text => setTextSignature text st
  | Clear => handleClear st
  | Replay | Download => st
  | NextStyle => handleRegenerateStyle st
  | SwitchMode m => setMode m st
  | ChangeOptions o => setOptions o st
  end.

Definition reachable (st : State) : Prop :=
  exists events, st = fold_left step events initialState.

(** [s.includes(sub)] *)
Fixpoint includes (sub s : string) : bool :=
  if String.prefix sub s then true
  else match s with
       | EmptyString => false
       | String _ s' => includes sub s'
       end.

(** [s.replace(/\s/g, '_')] on a string of one-byte characters. *)
Fixpoint replaceWhiteSpace (s : string) : string :=
  match s with
  | EmptyString => EmptyString
  | String c s' =>
      String (if isWhiteSpace c then "_"%char else c) (replaceWhiteSpace s')
  end.

Definition extraLargeFonts : list string :=
  [ "Nanum Brush Script"; "Black And White Picture"; "East Sea Dokdo";
    "Mrs Saint Delafield"; "Herr Von Muellerhoff"; "Kirang Haerang" ]%string.

Definition largeFonts : list string :=
  [ "Cute Font"; "Gaegu"; "Great Vibes"; "Alex Brush"; "Dongle"; "Stylish" ]%string.

Definition mediumFonts : list string :=
  [ "Jua"; "Sunflower"; "Do Hyeon"; "Gugi" ]%string.

Definition arrayIncludes (l : list string) (s : string) : bool :=
  existsb (String.eqb s) l.

(** What [handleDownload] draws in type mode and the name it saves under. *)
Record TextExport := mkTextExport {
  fillStyle : string;
  exportLineWidth : R;
  fontSize : nat;
  fontFamily : string;
  tilted : bool;
  filledText : Text;
  stroked : bool;
  fileName : string
}.

(** The code units of ['Signature']. *)
Definition placeholder : Text := [83; 105; 103; 110; 97; 116; 117; 114; 101]%N.

Definition exportedText (text : Text) : Text :=
  match text with
  | [] => placeholder
  | _ => text
  end.

Definition textDownload (st : State) (f : FontDef) : TextExport :=
  let options := appOptions st in
  let fontSize :=
    if arrayIncludes extraLargeFonts (name f) then 250%nat
    else if arrayIncludes largeFonts (name f) then 200%nat
    else if arrayIncludes mediumFonts (name f) then 150%nat
    else 180%nat in
  mkTextExport
    (color options)
    (Rmax 0 (maxWidth options - 1))
    fontSize
    (family f)
    (isKo (lang f) || includes "Brush" (name f) || includes "Vibes" (name f)
     || String.eqb (name f) "Kirang Haerang")
    (exportedText (textSignature st))
    (if Rlt_dec 1.0 (maxWidth options) then true else false)
    ("signature_" ++ replaceWhiteSpace (name f) ++ ".png")%string.

(** No character of [s] is white space. *)
Fixpoint noWhiteSpace (s : string) : bool :=
  match s with
  | EmptyString => true
  | String c s' => negb (isWhiteSpace c) && noWhiteSpace s'
  end.

End App.

(** * Properties *)

(** ** Arithmetic helpers *)

Lemma orDefault_zero (dflt : R) : orDefault (Some 0) dflt = orDefault None dflt.
Proof.
  unfold orDefault. destruct (Req_dec_T 0 0) as [_ | H]; [reflexivity | now destruct H].
Qed.

Lemma orDefault_nonzero (r dflt : R) : r <> 0 -> orDefault (Some r) dflt = r.
Proof.
  intro H. unfold orDefault. destruct (Req_dec_T r 0); [contradiction | reflexivity].
Qed.

Lemma orDefault_range (v : option R) :
  match v with Some r => 0 <= r <= 1 | None => True end ->
  0 <= orDefault v 0.5 <= 1.
Proof.
  destruct v as [r |]; simpl; intro H.
  - destruct (Req_dec_T r 0); lra.
  - lra.
Qed.

Lemma getDistance_nonneg (a b : Point) : 0 <= getDistance a b.
Proof. apply sqrt_pos. Qed.

Lemma sqrt_3_4 : sqrt ((0 - 3) ^ 2 + (0 - 4) ^ 2) = 5.
Proof.
  replace ((0 - 3) ^ 2 + (0 - 4) ^ 2) with (5 * 5) by lra.
  apply sqrt_square; lra.
Qed.

(** A blend of two values of an interval stays in the interval. *)
Lemma blend_between (lo hi w t k : R) :
  0 <= k <= 1 -> lo <= w <= hi -> lo <= t <= hi ->
  lo <= w * k + t * (1 - k) <= hi.
Proof. intros Hk Hw Ht. split; nra. Qed.

(** ** The geometry of [drawCurve] on the last three points *)

Lemma drawCurve_short (options : DrawingOptions) (points : list Point) (s : Pad) :
  (List.length points < 3)%nat -> drawCurve options points s = s.
Proof.
  intro H. unfold drawCurve.
  destruct (Nat.ltb_spec (List.length points) 3); [reflexivity | lia].
Qed.

Lemma drawCurve_last3 (options : DrawingOptions) (pre : list Point)
    (p1 p2 p3 : Point) (s : Pad) :
  drawCurve options (pre ++ [p1; p2; p3]) s =
  let width :=
    lastWidth s * smoothingFactor options
    + targetWidth options p1 p2 * (1 - smoothingFactor options) in
  stroke {| lineWidth := width;
            strokeStyle := curveStyle options;
            moveTo := (x (getMidPoint p1 p2), y (getMidPoint p1 p2));
            controlPoint := (x p2, y p2);
            endPoint := (x (getMidPoint p2 p3), y (getMidPoint p2 p3)) |}
         (setLastWidth width s).
Proof.
  unfold drawCurve. rewrite length_app. cbn [List.length].
  destruct (Nat.ltb_spec (List.length pre + 3) 3) as [H | _]; [lia |].
  replace (List.length pre + 3 - 3)%nat with (List.length pre + 0)%nat by lia.
  replace (List.length pre + 3 - 2)%nat with (List.length pre + 1)%nat by lia.
  replace (List.length pre + 3 - 1)%nat with (List.length pre + 2)%nat by lia.
  rewrite !nth_error_app2 by lia.
  replace (List.length pre + 0 - List.length pre)%nat with 0%nat by lia.
  replace (List.length pre + 1 - List.length pre)%nat with 1%nat by lia.
  replace (List.length pre + 2 - List.length pre)%nat with 2%nat by lia.
  reflexivity.
Qed.

(** A list of at least three points ends in three points. *)
Lemma last3_split (points : list Point) :
  (3 <= List.length points)%nat ->
  exists pre p1 p2 p3, points = pre ++ [p1; p2; p3].
Proof.
  intro H.
  exists (firstn (List.length points - 3) points).
  remember (skipn (List.length points - 3) points) as tl3 eqn:E.
  assert (Hl : List.length tl3 = 3%nat) by (subst; rewrite length_skipn; lia).
  destruct tl3 as [| p1 [| p2 [| p3 [| ? ?]]]]; try discriminate.
  exists p1, p2, p3. rewrite E. symmetry. apply firstn_skipn.
Qed.

(** [drawCurve] touches the width memory and the canvas only. *)
Lemma drawCurve_frame (options : DrawingOptions) (points : list Point) (s : Pad) :
  strokes (drawCurve options points s) = strokes s /\
  currentStroke (drawCurve options points s) = currentStroke s /\
  isDrawing (drawCurve options points s) = isDrawing s /\
  lastPoint (drawCurve options points s) = lastPoint s /\
  frames (drawCurve options points s) = frames s.
Proof.
  destruct (Nat.lt_ge_cases (List.length points) 3) as [H | H].
  - rewrite drawCurve_short by exact H. repeat split.
  - destruct (last3_split points H) as (pre & p1 & p2 & p3 & ->).
    rewrite drawCurve_last3. repeat split.
Qed.

(** ** C4: the velocity of the width model *)

(** C4, as amended.  For a pointer that is not a pen and samples whose
    time does not decrease, the pen tool and the calligraphy tool derive
    their target width from the velocity
    [distance(a,b) / (b.time - a.time + 1)]: the divisor is the elapsed
    time plus one millisecond (not the larger of the two), so it is at least
    one and is exactly one when no time has elapsed; the pencil uses no
    velocity. *)
Theorem engine_velocity (options : DrawingOptions) (a b : Point) :
  isPenPointer (pointerType b) = false ->
  0 <= time b - time a ->
  let divisor := time b - time a + 1 in
  let velocity := getDistance a b / divisor in
  1 <= divisor /\
  divisor - (time b - time a) = 1 /\
  targetWidth options a b =
  match tool options with
  | pen =>
      maxWidth options
      - Rmin velocity 2.5 / 2.5 * (maxWidth options - minWidth options)
  | calligraphy =>
      maxWidth options * 1.5
      - Rmin velocity 3.5 / 3.5
        * (maxWidth options * 1.5 - minWidth options * 0.5)
  | pencil => Rmax 0.5 (maxWidth options * 0.4)
  end.
Proof.
  intros Hp Ht divisor velocity. unfold divisor.
  split; [lra |]. split; [lra |].
  unfold targetWidth. rewrite Hp. destruct (tool options); reflexivity.
Qed.

Lemma engine_velocity_witness :
  targetWidth defaultOptions (mouseAt 0 0 0) (mouseAt 3 4 4) =
  maxWidth defaultOptions
  - Rmin (getDistance (mouseAt 0 0 0) (mouseAt 3 4 4) / (4 - 0 + 1)) 2.5 / 2.5
    * (maxWidth defaultOptions - minWidth defaultOptions).
Proof.
  refine (proj2 (proj2 (engine_velocity defaultOptions (mouseAt 0 0 0)
                          (mouseAt 3 4 4) eq_refl _))).
  cbn. lra.
Defined.

(** No time elapsed and one pixel travelled: the velocity is 1/1, and the
    pen goes from 2.5 down to 2.1. *)
Example zero_elapsed_time :
  targetWidth defaultOptions (mouseAt 0 0 7) (mouseAt 1 0 7) = 2.1.
Proof.
  unfold targetWidth, getDistance. cbn -[sqrt Rmin pow].
  replace ((0 - 1) ^ 2 + (0 - 0) ^ 2) with 1 by lra. rewrite sqrt_1.
  replace (1 / (7 - 7 + 1)) with 1 by lra.
  rewrite Rmin_left by lra. lra.
Qed.

(** C4 as stated fails: four milliseconds apart and five pixels apart, the
    width model works with the velocity 5/5, not with 5/max(1,4). *)
Lemma engine_velocity_is_not_max_floor :
  let a := mouseAt 0 0 0 in
  let b := mouseAt 3 4 4 in
  targetWidth defaultOptions a b = 2.1 /\
  maxWidth defaultOptions
  - Rmin (getDistance a b / Rmax 1 (time b - time a)) 2.5 / 2.5
    * (maxWidth defaultOptions - minWidth defaultOptions) = 2 /\
  targetWidth defaultOptions a b <>
  maxWidth defaultOptions
  - Rmin (getDistance a b / Rmax 1 (time b - time a)) 2.5 / 2.5
    * (maxWidth defaultOptions - minWidth defaultOptions).
Proof.
  assert (H1 : targetWidth defaultOptions (mouseAt 0 0 0) (mouseAt 3 4 4) = 2.1).
  { unfold targetWidth, getDistance. cbn -[sqrt Rmin pow].
    rewrite sqrt_3_4.
    replace (5 / (4 - 0 + 1)) with 1 by lra.
    rewrite Rmin_left by lra. lra. }
  assert (H2 : maxWidth defaultOptions
    - Rmin (getDistance (mouseAt 0 0 0) (mouseAt 3 4 4)
            / Rmax 1 (time (mouseAt 3 4 4) - time (mouseAt 0 0 0))) 2.5 / 2.5
      * (maxWidth defaultOptions - minWidth defaultOptions) = 2).
  { unfold getDistance. cbn -[sqrt Rmin Rmax pow].
    rewrite sqrt_3_4.
    rewrite Rmax_right by lra.
    replace (5 / (4 - 0)) with 1.25 by lra.
    rewrite Rmin_left by lra. lra. }
  cbv zeta. split; [exact H1 | split; [exact H2 |]].
  rewrite H1, H2. lra.
Qed.

(** The helper [getVelocity] of the geometry module, which the component
    imports but never calls, falls back to [0]. *)
Lemma getVelocity_fallback (a b : Point) :
  time b - time a <= 0 -> getVelocity a b = 0.
Proof.
  intro H. unfold getVelocity. cbv zeta.
  destruct (Rlt_dec 0 (time b - time a)); [lra | reflexivity].
Qed.

(** ** C6: the stabilizer *)

(** C6.  While a stroke is being drawn, with a previous accepted point and
    a positive streamline, the sample appended to the active stroke has the
    coordinates [lerp(lastAccepted, raw, 1 - effectiveStreamline)], that is
    [last*(1 - t) + raw*t] with [t = 1 - effectiveStreamline], the
    streamline being halved exactly for the pencil; time, pressure and
    pointer type are those of the raw sample, and the appended sample
    becomes the new last accepted point.  The stored coordinates stay
    behind the raw ones by the fraction [effectiveStreamline] of the gap to
    the last accepted point, so the raw coordinates are stored only when
    the pointer has not moved away from that point. *)
Theorem stabilizer_appends_filtered (options : DrawingOptions) (s : Pad)
    (raw lp : Point) :
  isDrawing s = true ->
  lastPoint s = Some lp ->
  0 < streamline options ->
  let eff :=
    match tool options with
    | pencil => streamline options * 0.5
    | _ => streamline options
    end in
  let stored :=
    {| x := x lp * (1 - (1 - eff)) + x raw * (1 - eff);
       y := y lp * (1 - (1 - eff)) + y raw * (1 - eff);
       pressure := pressure raw;
       time := time raw;
       pointerType := pointerType raw |} in
  currentStroke (handlePointerMove options raw s) = currentStroke s ++ [stored] /\
  lastPoint (handlePointerMove options raw s) = Some stored /\
  strokes (handlePointerMove options raw s) = strokes s /\
  x stored = lerp (x lp) (x raw) (1 - eff) /\
  y stored = lerp (y lp) (y raw) (1 - eff) /\
  x stored - x raw = eff * (x lp - x raw) /\
  y stored - y raw = eff * (y lp - y raw) /\
  (x stored = x raw <-> x lp = x raw) /\
  (y stored = y raw <-> y lp = y raw).
Proof.
  intros Hd Hl Hs eff stored.
  assert (He : 0 < eff) by (unfold eff; destruct (tool options); lra).
  assert (E : stabilize options (Some lp) raw = stored).
  { unfold stabilize, effectiveStreamline, stored, eff, lerp.
    destruct (tool options); cbn [isPencil];
      match goal with |- context [Rlt_dec 0 ?v] => destruct (Rlt_dec 0 v) end;
      try reflexivity; lra. }
  unfold handlePointerMove. rewrite Hd, Hl, E. cbn [negb].
  split; [reflexivity | split; [reflexivity |]].
  split.
  { cbv zeta. cbn [setLastPoint setCurrentStroke strokes]. apply drawCurve_frame. }
  unfold stored, lerp. cbn [x y].
  split; [reflexivity |]. split; [reflexivity |].
  split; [lra |]. split; [lra |].
  split; split; intro H; nra.
Qed.

Lemma stabilizer_appends_filtered_witness :
  exists q,
    currentStroke (handlePointerMove defaultOptions (mouseAt 20 15 8) drawingPad) =
    currentStroke drawingPad ++ [q] /\
    x q = 14 /\ y q = 12 /\
    pressure q = Some 0.5 /\ time q = 8 /\
    pointerType q = Some "mouse"%string.
Proof.
  assert (Hs : 0 < streamline defaultOptions) by (simpl; lra).
  eexists. split.
  - exact (proj1 (stabilizer_appends_filtered defaultOptions drawingPad
                    (mouseAt 20 15 8) (mouseAt 10 10 0) eq_refl eq_refl Hs)).
  - cbn [x y pressure time pointerType mouseAt defaultOptions tool streamline].
    repeat split; lra.
Defined.

(** ** C7: the pencil *)

(** Two hexadecimal digits parse to the byte they denote. *)
Lemma parseInt16_byte (c1 c2 : ascii) (d1 d2 : Z) :
  hexDigit c1 = Some d1 -> hexDigit c2 = Some d2 ->
  parseInt16 (String c1 (String c2 EmptyString)) = Some (d1 * 16 + d2)%Z.
Proof.
  intros H1 H2.
  destruct c1 as [[] [] [] [] [] [] [] []]; vm_compute in H1; try discriminate H1;
    injection H1 as <-;
    destruct c2 as [[] [] [] [] [] [] [] []]; vm_compute in H2; try discriminate H2;
    injection H2 as <-; reflexivity.
Qed.

(** For a colour written [#rrggbb], the pencil strokes with the three bytes
    of the colour and the opacity 0.7. *)
Lemma pencil_colour_components (c1 c2 c3 c4 c5 c6 : ascii) (d1 d2 d3 d4 d5 d6 : Z)
    (mn mx sm st : R) :
  hexDigit c1 = Some d1 -> hexDigit c2 = Some d2 -> hexDigit c3 = Some d3 ->
  hexDigit c4 = Some d4 -> hexDigit c5 = Some d5 -> hexDigit c6 = Some d6 ->
  curveStyle
    (mkOptions
       (String "#" (String c1 (String c2 (String c3 (String c4
          (String c5 (String c6 EmptyString)))))))
       mn mx sm st pencil) =
  CssRgba (Some (d1 * 16 + d2)%Z) (Some (d3 * 16 + d4)%Z) (Some (d5 * 16 + d6)%Z) 0.7.
Proof.
  intros H1 H2 H3 H4 H5 H6.
  unfold curveStyle, alpha. cbn [tool isPencil color slice Nat.sub String.substring].
  rewrite (parseInt16_byte _ _ _ _ H1 H2), (parseInt16_byte _ _ _ _ H3 H4),
    (parseInt16_byte _ _ _ _ H5 H6).
  reflexivity.
Qed.

(** C7.  Under the pencil tool the target width is the constant
    [max(0.5, maxWidth*0.4)] whatever the samples, the blend factor is 0.2,
    and every painted segment is stroked with the blended width and with the
    colour [rgba(r, g, b, 0.7)] whose components are parsed from the three
    two-character groups of the configured hex colour: for a colour
    written [#] and six hexadecimal digits, [r], [g] and [b] are the bytes
    that the pairs of digits denote, sixteen times the first digit plus the
    second. *)
Theorem pencil_width_and_colour (options : DrawingOptions) (s : Pad)
    (pre : list Point) (p1 p2 p3 : Point) :
  tool options = pencil ->
  targetWidth options p1 p2 = Rmax 0.5 (maxWidth options * 0.4) /\
  smoothingFactor options = 0.2 /\
  exists g,
    canvas (drawCurve options (pre ++ [p1; p2; p3]) s) = canvas s ++ [g] /\
    lineWidth g =
      lastWidth s * 0.2 + Rmax 0.5 (maxWidth options * 0.4) * (1 - 0.2) /\
    lastWidth (drawCurve options (pre ++ [p1; p2; p3]) s) = lineWidth g /\
    strokeStyle g =
      CssRgba (parseInt16 (slice 1 3 (color options)))
              (parseInt16 (slice 3 5 (color options)))
              (parseInt16 (slice 5 7 (color options))) 0.7 /\
    (forall (c1 c2 c3 c4 c5 c6 : ascii) (d1 d2 d3 d4 d5 d6 : Z),
       color options =
         String "#" (String c1 (String c2 (String c3 (String c4
           (String c5 (String c6 EmptyString)))))) ->
       hexDigit c1 = Some d1 -> hexDigit c2 = Some d2 -> hexDigit c3 = Some d3 ->
       hexDigit c4 = Some d4 -> hexDigit c5 = Some d5 -> hexDigit c6 = Some d6 ->
       strokeStyle g =
         CssRgba (Some (d1 * 16 + d2)%Z) (Some (d3 * 16 + d4)%Z)
                 (Some (d5 * 16 + d6)%Z) 0.7).
Proof.
  intro Ht.
  assert (T : targetWidth options p1 p2 = Rmax 0.5 (maxWidth options * 0.4))
    by (unfold targetWidth; rewrite Ht; reflexivity).
  assert (K : smoothingFactor options = 0.2)
    by (unfold smoothingFactor; rewrite Ht; reflexivity).
  split; [exact T | split; [exact K |]].
  rewrite drawCurve_last3. cbv zeta. rewrite T, K.
  eexists. split; [reflexivity |]. cbn [lineWidth strokeStyle].
  split; [reflexivity | split; [reflexivity |]].
  split.
  - unfold curveStyle, alpha. rewrite Ht. reflexivity.
  - intros c1 c2 c3 c4 c5 c6 d1 d2 d3 d4 d5 d6 Hc H1 H2 H3 H4 H5 H6.
    rewrite <- (pencil_colour_components c1 c2 c3 c4 c5 c6 d1 d2 d3 d4 d5 d6
                  (minWidth options) (maxWidth options) (smoothing options)
                  (streamline options) H1 H2 H3 H4 H5 H6).
    rewrite <- Hc, <- Ht. destruct options; reflexivity.
Qed.

Lemma pencil_width_and_colour_witness :
  exists g,
    canvas (drawCurve pencilOptions
              [mouseAt 0 0 0; penAt 30 40 1 1; mouseAt 1 1 2]
              (initialPad pencilOptions)) = [g] /\
    lineWidth g = 2.5 * 0.2 + Rmax 0.5 (2.5 * 0.4) * (1 - 0.2) /\
    strokeStyle g = CssRgba (Some 26%Z) (Some 43%Z) (Some 60%Z) 0.7.
Proof.
  destruct (pencil_width_and_colour pencilOptions (initialPad pencilOptions) []
              (mouseAt 0 0 0) (penAt 30 40 1 1) (mouseAt 1 1 2) eq_refl)
    as (_ & _ & g & Hc & Hw & _ & _ & Hhex).
  exists g. split; [exact Hc |]. split; [exact Hw |].
  exact (Hhex "1"%char "a"%char "2"%char "B"%char "3"%char "c"%char
           1%Z 10%Z 2%Z 11%Z 3%Z 12%Z
           eq_refl eq_refl eq_refl eq_refl eq_refl eq_refl eq_refl).
Defined.

(** The colour [#1a2B3c] is stroked as [rgba(26, 43, 60, 0.7)]. *)
Example pencil_colour_example :
  curveStyle pencilOptions = CssRgba (Some 26%Z) (Some 43%Z) (Some 60%Z) 0.7.
Proof. reflexivity. Qed.

(** ** C9: a pressure of zero *)

Lemma targetWidth_zero_pressure (options : DrawingOptions) (p1 p2 : Point) :
  targetWidth options p1 (withPressure (Some 0) p2) =
  targetWidth options p1 (withPressure None p2).
Proof.
  unfold targetWidth. cbn [withPressure pressure pointerType time].
  rewrite orDefault_zero. unfold getDistance. reflexivity.
Qed.

(** C9.  Wherever a pressure is read, a recorded pressure of exactly 0
    behaves as an absent one, and both stand for 0.5: [drawCurve] leaves
    the same state and paints the same segment, the width guessed at
    stroke start is the same, and the midpoint is the same on either side.
    For a pen pointer that reports the pressure 0, the pen tool aims at
    [(minWidth + (maxWidth - minWidth)*0.5)*1.1] and the brush at
    [minWidth + (maxWidth*1.5 - minWidth)*0.5^2], the width guessed at
    stroke start is [minWidth + (maxWidth - minWidth)*0.5], and the
    midpoint carries the mean of the pressures with 0.5 in the place of the
    zero one. *)
Theorem zero_pressure_is_default (options : DrawingOptions) (s : Pad)
    (pre : list Point) (p1 p2 p3 q : Point) :
  drawCurve options (pre ++ [p1; withPressure (Some 0) p2; p3]) s =
  drawCurve options (pre ++ [p1; withPressure None p2; p3]) s /\
  lastWidth (handlePointerDown options (withPressure (Some 0) q) s) =
  lastWidth (handlePointerDown options (withPressure None q) s) /\
  getMidPoint (withPressure (Some 0) p1) p2 = getMidPoint (withPressure None p1) p2 /\
  getMidPoint p1 (withPressure (Some 0) p2) = getMidPoint p1 (withPressure None p2) /\
  (forall c mn mx sm st px py t,
     targetWidth (mkOptions c mn mx sm st pen) p1
       (mkPoint px py (Some 0) t (Some "pen"%string)) =
     (mn + (mx - mn) * 0.5) * 1.1) /\
  (forall c mn mx sm st px py t,
     targetWidth (mkOptions c mn mx sm st calligraphy) p1
       (mkPoint px py (Some 0) t (Some "pen"%string)) =
     mn + (mx * 1.5 - mn) * 0.5 ^ 2) /\
  (forall c mn mx sm st px py t,
     lastWidth (handlePointerDown (mkOptions c mn mx sm st pen)
                  (mkPoint px py (Some 0) t (Some "pen"%string)) s) =
     mn + (mx - mn) * 0.5 /\
     lastWidth (handlePointerDown (mkOptions c mn mx sm st calligraphy)
                  (mkPoint px py (Some 0) t (Some "pen"%string)) s) =
     mn + (mx - mn) * 0.5) /\
  getMidPoint (withPressure (Some 0) p1) (withPressure (Some 0) p2) =
    mkPoint (x p1 + (x p2 - x p1) / 2) (y p1 + (y p2 - y p1) / 2)
            (Some (0.5 + (0.5 - 0.5) / 2))
            (time p1 + (time p2 - time p1) / 2) (pointerType p1) /\
  getMidPoint (withPressure (Some 0) p1) (withPressure (Some 1) p2) =
    mkPoint (x p1 + (x p2 - x p1) / 2) (y p1 + (y p2 - y p1) / 2)
            (Some (0.5 + (1 - 0.5) / 2))
            (time p1 + (time p2 - time p1) / 2) (pointerType p1) /\
  getMidPoint (withPressure (Some 1) p1) (withPressure (Some 0) p2) =
    mkPoint (x p1 + (x p2 - x p1) / 2) (y p1 + (y p2 - y p1) / 2)
            (Some (1 + (0.5 - 1) / 2))
            (time p1 + (time p2 - time p1) / 2) (pointerType p1) /\
  (forall c mn mx sm st px py t,
     canvas (drawCurve (mkOptions c mn mx sm st pen)
               (pre ++ [p1; mkPoint px py (Some 0) t (Some "pen"%string); p3]) s) =
     canvas s
     ++ [ {| lineWidth :=
               lastWidth s * 0.6 + (mn + (mx - mn) * 0.5) * 1.1 * (1 - 0.6);
             strokeStyle := CssColor c;
             moveTo := (x p1 + (px - x p1) / 2, y p1 + (py - y p1) / 2);
             controlPoint := (px, py);
             endPoint := (px + (x p3 - px) / 2, py + (y p3 - py) / 2) |} ]).
Proof.
  assert (One : orDefault (Some 1) 0.5 = 1) by (apply orDefault_nonzero; lra).
  split; [| split; [| split; [| split; [| split; [| split; [| split;
    [| split; [| split; [| split]]]]]]]]].
  - rewrite !drawCurve_last3. cbv zeta.
    rewrite targetWidth_zero_pressure. reflexivity.
  - unfold handlePointerDown.
    destruct (isPencil (tool options)); [reflexivity |].
    cbn [withPressure pointerType pressure].
    destruct (isPenPointer (pointerType q)); [| reflexivity].
    cbn [lastWidth setLastWidth]. rewrite orDefault_zero. reflexivity.
  - unfold getMidPoint. cbn [withPressure x y time pressure pointerType].
    rewrite orDefault_zero. reflexivity.
  - unfold getMidPoint. cbn [withPressure x y time pressure pointerType].
    rewrite orDefault_zero. reflexivity.
  - intros. unfold targetWidth. cbn [tool pointerType isPenPointer pressure].
    rewrite orDefault_zero. reflexivity.
  - intros. unfold targetWidth. cbn [tool pointerType isPenPointer pressure].
    rewrite orDefault_zero. reflexivity.
  - intros. unfold handlePointerDown.
    cbn [tool isPencil pointerType isPenPointer pressure minWidth maxWidth
         lastWidth setLastWidth].
    rewrite orDefault_zero. split; reflexivity.
  - unfold getMidPoint. cbn [withPressure x y time pressure pointerType].
    rewrite orDefault_zero. reflexivity.
  - unfold getMidPoint. cbn [withPressure x y time pressure pointerType].
    rewrite orDefault_zero, One. reflexivity.
  - unfold getMidPoint. cbn [withPressure x y time pressure pointerType].
    rewrite orDefault_zero, One. reflexivity.
  - intros. rewrite drawCurve_last3. cbv zeta.
    unfold targetWidth, smoothingFactor, curveStyle, getMidPoint.
    cbn [tool isPencil pointerType isPenPointer pressure minWidth maxWidth color
         stroke setLastWidth canvas x y].
    rewrite orDefault_zero. reflexivity.
Qed.

(** ** C10: the newest sample does not influence width or colour *)

(** C10.  Two calls of [drawCurve] from the same state, on windows that
    share their two older points and differ in the newest one (and in
    whatever comes before the window), stroke one segment each, with the
    same width, the same style, the same start and the same control point,
    and leave the same width memory; the end points are the midpoints with
    the respective newest sample. *)
Theorem newest_sample_only_moves_end (options : DrawingOptions) (s : Pad)
    (pre pre' : list Point) (p1 p2 p3 p3' : Point) :
  exists g g',
    canvas (drawCurve options (pre ++ [p1; p2; p3]) s) = canvas s ++ [g] /\
    canvas (drawCurve options (pre' ++ [p1; p2; p3']) s) = canvas s ++ [g'] /\
    lineWidth g = lineWidth g' /\
    strokeStyle g = strokeStyle g' /\
    moveTo g = moveTo g' /\
    controlPoint g = controlPoint g' /\
    endPoint g = (x (getMidPoint p2 p3), y (getMidPoint p2 p3)) /\
    endPoint g' = (x (getMidPoint p2 p3'), y (getMidPoint p2 p3')) /\
    lastWidth (drawCurve options (pre ++ [p1; p2; p3]) s) =
    lastWidth (drawCurve options (pre' ++ [p1; p2; p3']) s).
Proof.
  rewrite !drawCurve_last3. cbv zeta.
  eexists. eexists. repeat split.
Qed.

(** ** C8: vector export *)

Lemma map_nth_seq {A B : Type} (f : A -> B) (l : list A) (dflt : A) :
  map (fun i => f (nth i l dflt)) (seq 0 (List.length l)) = map f l.
Proof.
  induction l as [| a l IH]; [reflexivity |].
  cbn [List.length seq map nth]. f_equal.
  rewrite <- seq_shift, map_map. exact IH.
Qed.

Lemma strokePath_spec (options : DrawingOptions) (stroke : Stroke) :
  strokePath options stroke =
  if (2 <=? List.length stroke)%nat then [pathOf options stroke] else [].
Proof.
  unfold strokePath.
  destruct stroke as [| p0 [| p1 rest]]; try reflexivity.
  set (l := p1 :: rest).
  assert (Hl : List.length l = S (List.length rest)) by reflexivity.
  replace (List.length (p0 :: l) <? 2)%nat with false
    by (symmetry; apply Nat.ltb_ge; cbn [List.length]; lia).
  replace (2 <=? List.length (p0 :: l))%nat with true
    by (symmetry; apply Nat.leb_le; cbn [List.length]; lia).
  cbv zeta. unfold pathOf.
  assert (E : ([M (toFixed2 (x (nth 0 (p0 :: l) origin)))
                  (toFixed2 (y (nth 0 (p0 :: l) origin)))]
               ++ map (fun i => L (toFixed2 (x (nth i (p0 :: l) origin)))
                                  (toFixed2 (y (nth i (p0 :: l) origin))))
                      (seq 1 (List.length (p0 :: l) - 2)))
              ++ [L (toFixed2 (x (nth (List.length (p0 :: l) - 1) (p0 :: l) origin)))
                    (toFixed2 (y (nth (List.length (p0 :: l) - 1) (p0 :: l) origin)))]
              = M (toFixed2 (x p0)) (toFixed2 (y p0))
                :: map (fun p => L (toFixed2 (x p)) (toFixed2 (y p))) l).
  { cbn [nth app]. f_equal.
    rewrite <- (map_nth_seq (fun p => L (toFixed2 (x p)) (toFixed2 (y p))) l origin).
    cbn [List.length]. rewrite Hl.
    replace (S (S (List.length rest)) - 2)%nat with (List.length rest) by lia.
    replace (S (S (List.length rest)) - 1)%nat with (S (List.length rest)) by lia.
    rewrite seq_S, map_app. cbn [map Nat.add]. f_equal.
    rewrite <- seq_shift, map_map. reflexivity. }
  rewrite E. destruct (tool options); reflexivity.
Qed.

(** C8.  The exported document holds, in order, one path per stored stroke
    of at least two samples and nothing for the shorter ones; the path of a
    stroke is a move to its first sample followed by one line per later
    sample, so it has as many commands as the stroke has samples; it is
    stroked with [maxWidth*0.5] at opacity 0.7 under the pencil and with
    [maxWidth] at opacity 1 otherwise. *)
Theorem vector_export_paths (options : DrawingOptions) (dpr : R)
    (strokes : list Stroke) (width height : R) :
  paths (generateSVG options dpr strokes width height) =
  map (pathOf options)
      (filter (fun stroke => (2 <=? List.length stroke)%nat) strokes) /\
  (forall stroke, List.length (d (pathOf options stroke)) = List.length stroke) /\
  (forall stroke,
     strokeWidth (pathOf options stroke) =
       (if isPencil (tool options) then maxWidth options * 0.5 else maxWidth options) /\
     strokeOpacity (pathOf options stroke) =
       (if isPencil (tool options) then 0.7 else 1)).
Proof.
  split; [| split].
  - unfold generateSVG. cbn [paths].
    induction strokes as [| st rest IH]; [reflexivity |].
    cbn [flat_map filter]. rewrite IH, strokePath_spec.
    destruct (2 <=? List.length st)%nat; reflexivity.
  - intro st. unfold pathOf.
    destruct st as [| p0 rest]; destruct (tool options); cbn [d List.length];
      rewrite ?length_map; reflexivity.
  - intro st. unfold pathOf. destruct (tool options); split; reflexivity.
Qed.

(** A stroke of three samples exports as a move and two lines. *)
Example strokePath_three :
  strokePath defaultOptions [mouseAt 1 2 0; mouseAt 3 4 5; mouseAt 5 6 9] =
  [mkSvgPath [M (toFixed2 1) (toFixed2 2); L (toFixed2 3) (toFixed2 4);
              L (toFixed2 5) (toFixed2 6)]
             "#000000" 1 2.5].
Proof. reflexivity. Qed.

(** ** C5: the drawing flag and the active stroke *)

Lemma animationFrame_fold (l : list Animation) (s : Pad) :
  strokes (fold_left (fun s a => drawNext a s) l s) = strokes s /\
  currentStroke (fold_left (fun s a => drawNext a s) l s) = currentStroke s /\
  isDrawing (fold_left (fun s a => drawNext a s) l s) = isDrawing s /\
  lastPoint (fold_left (fun s a => drawNext a s) l s) = lastPoint s.
Proof.
  revert s. induction l as [| a l IH]; intro s; [repeat split |].
  cbn [fold_left].
  destruct (IH (drawNext a s)) as (E1 & E2 & E3 & E4).
  rewrite E1, E2, E3, E4. clear.
  unfold drawNext.
  destruct (List.length (allStrokes a) <=? strokeIdx a)%nat; [repeat split |].
  cbv zeta.
  destruct (Z.of_nat (pointIdx a)
            <? Z.of_nat (List.length (nth (strokeIdx a) (allStrokes a) [])) - 1)%Z;
    [| repeat split].
  destruct (drawCurve_frame (animOptions a)
              (firstn (pointIdx a + 3) (nth (strokeIdx a) (allStrokes a) [])) s)
    as (F1 & F2 & F3 & F4 & _).
  cbn [requestAnimationFrame strokes currentStroke isDrawing lastPoint].
  rewrite F1, F2, F3, F4. repeat split.
Qed.

(** One half of the invariant holds in every reachable state: a pad that
    is not drawing has an empty active stroke and no last point. *)
Lemma idle_pad_has_no_active_stroke (sys : System) :
  reachable sys ->
  isDrawing (snd sys) = false ->
  currentStroke (snd sys) = [] /\ lastPoint (snd sys) = None.
Proof.
  assert (G : forall events start,
             (isDrawing (snd start) = false ->
              currentStroke (snd start) = [] /\ lastPoint (snd start) = None) ->
             isDrawing (snd (fold_left step events start)) = false ->
             currentStroke (snd (fold_left step events start)) = [] /\
             lastPoint (snd (fold_left step events start)) = None).
  { induction events as [| e events IH]; intros start H0; [exact H0 |].
    cbn [fold_left]. apply IH. clear IH.
    destruct start as [o s]. cbn [snd] in H0.
    destruct e; cbn [step snd]; try exact H0.
    - unfold handlePointerDown.
      destruct (isPencil (tool o)); [| destruct (isPenPointer _)];
        cbn; intro H; discriminate H.
    - cbn [render setRenderedStroke isDrawing currentStroke lastPoint].
      unfold handlePointerMove.
      destruct (isDrawing s) eqn:E; cbn [negb]; [| intros _; exact (H0 eq_refl)].
      cbv zeta. cbn [setLastPoint setCurrentStroke isDrawing].
      destruct (drawCurve_frame o
                  (currentStroke s ++ [stabilize o (lastPoint s) point]) s)
        as (_ & _ & F3 & _).
      rewrite F3, E. intro H. discriminate H.
    - unfold handlePointerUp.
      destruct (isDrawing s) eqn:E; cbn [negb];
        [split; reflexivity | intros _; exact (H0 eq_refl)].
    - unfold handlePointerUp.
      destruct (isDrawing s) eqn:E; cbn [negb];
        [split; reflexivity | intros _; exact (H0 eq_refl)].
    - cbn. intro H. destruct (H0 H) as [_ H2]. split; [reflexivity | exact H2].
    - unfold replay, animateDrawing. cbv zeta.
      set (a := mkAnimation o (strokes s) 0 0).
      destruct (animationFrame_fold [a] (clearRect s)) as (_ & E2 & E3 & E4).
      cbn [fold_left] in E2, E3, E4. rewrite E2, E3, E4. exact H0.
    - unfold animationFrame.
      destruct (animationFrame_fold (frames s) (takeFrames s)) as (_ & E2 & E3 & E4).
      rewrite E2, E3, E4. exact H0.
    - unfold handlePointerMove.
      destruct (isDrawing s) eqn:E; cbn [negb]; [| intros _; exact (H0 eq_refl)].
      cbv zeta. cbn [setLastPoint setCurrentStroke isDrawing].
      destruct (drawCurve_frame o
                  (currentStroke s ++ [stabilize o (lastPoint s) point]) s)
        as (_ & _ & F3 & _).
      rewrite F3, E. intro H. discriminate H. }
  intros (options & events & ->) Hs. apply (G events (mounted options)).
  - intros _. split; reflexivity.
  - exact Hs.
Qed.

(** C5, evaluated where it fails.  A clear request that arrives between
    pointer-down and pointer-up empties the active stroke and leaves the
    drawing flag set: the reachable state is drawing with an empty active
    stroke. *)
Theorem clear_while_drawing_leaves_flag_set :
  let sys :=
    run (mounted defaultOptions) [PointerDown (mouseAt 10 10 0); ClearRequest] in
  reachable sys /\
  isDrawing (snd sys) = true /\
  currentStroke (snd sys) = [] /\
  lastPoint (snd sys) = Some (mouseAt 10 10 0).
Proof.
  cbv zeta. split.
  - exists defaultOptions, [PointerDown (mouseAt 10 10 0); ClearRequest].
    reflexivity.
  - repeat split.
Qed.

(** ** C2: clear during a replay *)

Lemma drawCurve_sameInk (options : DrawingOptions) (points : list Point)
    (pre : list Segment) (a b : Pad) :
  sameInk pre a b ->
  sameInk pre (drawCurve options points a) (drawCurve options points b).
Proof.
  intros (Hw & Hf & Hc).
  destruct (Nat.lt_ge_cases (List.length points) 3) as [H | H].
  - rewrite !drawCurve_short by exact H. repeat split; assumption.
  - destruct (last3_split points H) as (l & p1 & p2 & p3 & ->).
    rewrite !drawCurve_last3. cbv zeta. unfold sameInk.
    cbn [stroke setLastWidth lastWidth frames canvas].
    rewrite Hw, Hf, Hc, app_assoc. repeat split.
Qed.

Lemma drawNext_sameInk (anim : Animation) (pre : list Segment) (a b : Pad) :
  sameInk pre a b -> sameInk pre (drawNext anim a) (drawNext anim b).
Proof.
  intro H. unfold drawNext.
  destruct (List.length (allStrokes anim) <=? strokeIdx anim)%nat; [exact H |].
  cbv zeta.
  assert (R : forall anim' a b, sameInk pre a b ->
              sameInk pre (requestAnimationFrame anim' a)
                          (requestAnimationFrame anim' b)).
  { intros anim' a' b' (Hw & Hf & Hc). unfold sameInk.
    cbn [requestAnimationFrame lastWidth frames canvas].
    rewrite Hw, Hf, Hc. repeat split. }
  destruct (Z.of_nat (pointIdx anim) <? _)%Z; apply R; [| exact H].
  apply drawCurve_sameInk. exact H.
Qed.

Lemma animationFrame_sameInk (pre : list Segment) (a b : Pad) :
  sameInk pre a b -> sameInk pre (animationFrame a) (animationFrame b).
Proof.
  intros (Hw & Hf & Hc). unfold animationFrame. rewrite Hf.
  assert (H : sameInk pre (takeFrames a) (takeFrames b))
    by (unfold sameInk; cbn [takeFrames lastWidth frames canvas]; auto).
  revert H. generalize (takeFrames a) (takeFrames b).
  generalize (frames b) as l. clear.
  induction l as [| anim l IH]; intros a' b' H; [exact H |].
  cbn [fold_left]. apply IH. apply drawNext_sameInk. exact H.
Qed.

Lemma animationFrames_sameInk (n : nat) (pre : list Segment) (a b : Pad) :
  sameInk pre a b -> sameInk pre (animationFrames n a) (animationFrames n b).
Proof.
  revert a b. induction n as [| n IH]; intros a b H; [exact H |].
  cbn [animationFrames]. apply IH. apply animationFrame_sameInk. exact H.
Qed.

Lemma animationFrames_store (n : nat) (s : Pad) :
  strokes (animationFrames n s) = strokes s /\
  currentStroke (animationFrames n s) = currentStroke s.
Proof.
  revert s. induction n as [| n IH]; intro s; [split; reflexivity |].
  cbn [animationFrames]. destruct (IH (animationFrame s)) as [E1 E2].
  rewrite E1, E2. unfold animationFrame.
  destruct (animationFrame_fold (frames s) (takeFrames s)) as (F1 & F2 & _).
  rewrite F1, F2. split; reflexivity.
Qed.

(** C2, as amended.  A clear request does not cancel a running replay.  It
    empties the stroke store and wipes the surface, and the callbacks
    already registered stay registered; over any number of later animation
    frames they register the same callbacks, keep the same width memory and
    paint exactly the segments they would have painted had the clear not
    happened, onto the wiped surface, while the store stays empty. *)
Theorem clear_does_not_cancel_replay (s : Pad) (n : nat) :
  frames (clear s) = frames s /\
  canvas (clear s) = [] /\
  frames (animationFrames n (clear s)) = frames (animationFrames n s) /\
  lastWidth (animationFrames n (clear s)) = lastWidth (animationFrames n s) /\
  canvas (animationFrames n s) = canvas s ++ canvas (animationFrames n (clear s)) /\
  strokes (animationFrames n (clear s)) = [] /\
  currentStroke (animationFrames n (clear s)) = [].
Proof.
  assert (H : sameInk (canvas s) s (clear s)).
  { unfold sameInk, clear. cbn. rewrite app_nil_r. repeat split. }
  destruct (animationFrames_sameInk n _ _ _ H) as (Hw & Hf & Hc).
  destruct (animationFrames_store n (clear s)) as [E1 E2].
  repeat split; auto.
Qed.

(** C2 as stated fails: a stroke of four samples is drawn and replayed, the
    clear request arrives after the first replayed segment, and the next
    animation frame paints the second segment onto the wiped surface. *)
Lemma replay_paints_after_clear :
  let session :=
    run (mounted defaultOptions)
        [PointerDown (penAt 10 10 0.5 0); PointerMove (penAt 20 15 0.5 8);
         PointerMove (penAt 30 25 0.5 16); PointerMove (penAt 40 30 0.5 24);
         PointerUp; ReplayRequest; ClearRequest] in
  canvas (snd session) = [] /\
  strokes (snd session) = [] /\
  List.length (frames (snd session)) = 1%nat /\
  List.length (canvas (snd (step session AnimationFrameTick))) = 1%nat /\
  canvas (snd (step session AnimationFrameTick)) <> [].
Proof.
  cbv zeta.
  assert (H : List.length
                (canvas (snd (step
                   (run (mounted defaultOptions)
                      [PointerDown (penAt 10 10 0.5 0); PointerMove (penAt 20 15 0.5 8);
                       PointerMove (penAt 30 25 0.5 16); PointerMove (penAt 40 30 0.5 24);
                       PointerUp; ReplayRequest; ClearRequest])
                   AnimationFrameTick))) = 1%nat) by reflexivity.
  repeat split; try reflexivity.
  intro E. rewrite E in H. discriminate H.
Qed.

(** ** C3: bounds on the stroked width *)

Lemma chronological_app_r (l m : list Point) :
  chronological (l ++ m) -> chronological m.
Proof.
  induction l as [| a l IH]; [trivial |].
  intro H. apply IH. destruct l as [| b l]; cbn in H |- *.
  - destruct m; [exact I | apply H].
  - apply H.
Qed.

Lemma chronological_snoc (l : list Point) (a b : Point) :
  chronological (l ++ [a]) -> time a <= time b -> chronological (l ++ [a; b]).
Proof.
  induction l as [| c l IH]; intros H Hab.
  - cbn. auto.
  - destruct l as [| e l].
    + cbn in H |- *. destruct H as [H1 _]. auto.
    + cbn [app chronological] in H |- *. destruct H as [H1 H2].
      split; [exact H1 | apply IH; assumption].
Qed.

Section WidthBounds.

Variable options : DrawingOptions.
Hypothesis widths_ordered : 0 < minWidth options <= maxWidth options.

Lemma normalized_speed_range (v cap : R) :
  0 <= v -> 0 < cap -> 0 <= Rmin v cap / cap <= 1.
Proof.
  intros Hv Hc. unfold Rmin. destruct (Rle_dec v cap) as [H | H].
  - split.
    + apply Rmult_le_pos; [exact Hv | left; apply Rinv_0_lt_compat; exact Hc].
    + apply (Rmult_le_reg_r cap); [exact Hc |].
      unfold Rdiv. rewrite Rmult_assoc, Rinv_l by lra. lra.
  - unfold Rdiv. rewrite Rinv_r by lra. lra.
Qed.

Lemma velocity_nonneg (p1 p2 : Point) :
  time p1 <= time p2 -> 0 <= getDistance p1 p2 / (time p2 - time p1 + 1).
Proof.
  intro H. apply Rmult_le_pos; [apply getDistance_nonneg |].
  left. apply Rinv_0_lt_compat. lra.
Qed.

Lemma targetWidth_bounds (p1 p2 : Point) :
  pressureInRange p2 -> time p1 <= time p2 ->
  widthFloor options <= targetWidth options p1 p2 <= widthCeiling options.
Proof.
  intros Hp Ht. pose proof widths_ordered as Hw.
  pose proof (orDefault_range (pressure p2) Hp) as Hq.
  assert (Hm : Rmin (minWidth options) (minWidth options * 0.5)
               = minWidth options * 0.5) by (apply Rmin_right; lra).
  unfold widthFloor, widthCeiling, targetWidth. rewrite Hm.
  destruct (tool options).
  - (* pen *)
    destruct (isPenPointer (pointerType p2)); cbv zeta.
    + nra.
    + pose proof (normalized_speed_range _ 2.5 (velocity_nonneg p1 p2 Ht)) as Hn.
      assert (Hn' := Hn ltac:(lra)). nra.
  - (* pencil *)
    split; [apply Rmin_r | apply Rmax_r].
  - (* calligraphy *)
    destruct (isPenPointer (pointerType p2)); cbv zeta.
    + assert (0 <= orDefault (pressure p2) 0.5 ^ 2 <= 1) by nra. nra.
    + pose proof (normalized_speed_range _ 3.5 (velocity_nonneg p1 p2 Ht)) as Hn.
      assert (Hn' := Hn ltac:(lra)). nra.
Qed.

Lemma initial_width_bounds (point : Point) (s : Pad) :
  pressureInRange point ->
  widthFloor options <= lastWidth (handlePointerDown options point s)
  <= widthCeiling options.
Proof.
  intro Hp. pose proof widths_ordered as Hw.
  pose proof (orDefault_range (pressure point) Hp) as Hq.
  assert (Hm : Rmin (minWidth options) (minWidth options * 0.5)
               = minWidth options * 0.5) by (apply Rmin_right; lra).
  unfold widthFloor, widthCeiling, handlePointerDown. rewrite Hm.
  destruct (tool options); cbn [isPencil].
  - destruct (isPenPointer (pointerType point)); cbn [setLastWidth lastWidth]; nra.
  - cbn [setLastWidth lastWidth]. split; [apply Rmin_l | apply Rmax_l].
  - destruct (isPenPointer (pointerType point)); cbn [setLastWidth lastWidth]; nra.
Qed.

Lemma smoothingFactor_range : 0 <= smoothingFactor options <= 1.
Proof. unfold smoothingFactor. destruct (isPencil (tool options)); lra. Qed.

Lemma widthFloor_le_ceiling : widthFloor options <= widthCeiling options.
Proof.
  pose proof widths_ordered.
  assert (Hm : Rmin (minWidth options) (minWidth options * 0.5)
               = minWidth options * 0.5) by (apply Rmin_right; lra).
  unfold widthFloor, widthCeiling. rewrite Hm.
  destruct (tool options); try lra.
  apply Rle_trans with (maxWidth options * 0.5); [apply Rmin_l | apply Rmax_l].
Qed.

End WidthBounds.

Section LiveCapture.

Variable options : DrawingOptions.
Hypothesis widths_ordered : 0 < minWidth options <= maxWidth options.

Let widthOk (g : Segment) : Prop :=
  widthFloor options <= lineWidth g <= widthCeiling options.

Lemma drawCurve_keeps_bounds (points : list Point) (painted : list Segment)
    (base s : Pad) :
  chronological points ->
  Forall pressureInRange points ->
  widthFloor options <= lastWidth s <= widthCeiling options ->
  canvas s = canvas base ++ painted ->
  Forall widthOk painted ->
  exists painted',
    widthFloor options <= lastWidth (drawCurve options points s)
    <= widthCeiling options /\
    canvas (drawCurve options points s) = canvas base ++ painted' /\
    Forall widthOk painted'.
Proof.
  intros Hc Hp Hw Hcan Hall.
  destruct (Nat.lt_ge_cases (List.length points) 3) as [H | H].
  - rewrite drawCurve_short by exact H. exists painted. auto.
  - destruct (last3_split points H) as (l & p1 & p2 & p3 & ->).
    rewrite drawCurve_last3. cbv zeta.
    apply chronological_app_r in Hc. destruct Hc as [H12 _].
    assert (Hp2 : pressureInRange p2).
    { rewrite Forall_forall in Hp. apply Hp. apply in_or_app. right.
      right. left. reflexivity. }
    pose proof (targetWidth_bounds options widths_ordered p1 p2 Hp2 H12) as Ht.
    pose proof (blend_between _ _ _ _ _ (smoothingFactor_range options) Hw Ht) as Hb.
    eexists. cbn [stroke setLastWidth lastWidth canvas].
    split; [exact Hb |]. split.
    + rewrite Hcan, <- app_assoc. reflexivity.
    + apply Forall_app. split; [exact Hall |].
      constructor; [exact Hb | constructor].
Qed.

Lemma stabilize_passes (last : option Point) (raw : Point) :
  time (stabilize options last raw) = time raw /\
  pressure (stabilize options last raw) = pressure raw /\
  pointerType (stabilize options last raw) = pointerType raw.
Proof.
  unfold stabilize. destruct last as [lp |]; [| repeat split].
  destruct (Rlt_dec 0 (effectiveStreamline options)); repeat split.
Qed.

Lemma handlePointerMove_capturing (painted : list Segment) (base s : Pad)
    (lp raw : Point) :
  capturing options painted base lp s ->
  pressureInRange raw ->
  time lp <= time raw ->
  exists painted',
    capturing options painted' base (stabilize options (Some lp) raw)
              (handlePointerMove options raw s).
Proof.
  intros (Hd & Hw & Hcan & Hall & Hc & Hp & Hl & pre & Hs) Hpr Ht.
  destruct (stabilize_passes (Some lp) raw) as (Et & Ep & _).
  set (point := stabilize options (Some lp) raw) in *.
  assert (Hc' : chronological (currentStroke s ++ [point])).
  { rewrite Hs, <- app_assoc. cbn [app]. apply chronological_snoc.
    - rewrite <- Hs. exact Hc.
    - rewrite Et. exact Ht. }
  assert (Hp' : Forall pressureInRange (currentStroke s ++ [point])).
  { apply Forall_app. split; [exact Hp |].
    constructor; [| constructor]. unfold pressureInRange. rewrite Ep. exact Hpr. }
  destruct (drawCurve_keeps_bounds _ painted base s Hc' Hp' Hw Hcan Hall)
    as (painted' & Hw' & Hcan' & Hall').
  destruct (drawCurve_frame options (currentStroke s ++ [point]) s)
    as (_ & _ & F3 & _).
  exists painted'. unfold handlePointerMove. rewrite Hd, Hl. cbn [negb].
  fold point. cbv zeta. unfold capturing.
  cbn [setLastPoint setCurrentStroke isDrawing lastWidth canvas currentStroke
       lastPoint].
  rewrite F3. repeat split; try assumption; try apply Hw'.
  exists (currentStroke s). reflexivity.
Qed.

Lemma moves_keep_bounds (moves : list Point) (painted : list Segment)
    (base s : Pad) (lp : Point) :
  capturing options painted base lp s ->
  Forall pressureInRange moves ->
  chronological (lp :: moves) ->
  exists painted',
    canvas (fold_left (fun s raw => handlePointerMove options raw s) moves s)
    = canvas base ++ painted' /\
    Forall widthOk painted'.
Proof.
  revert painted s lp. induction moves as [| raw moves IH];
    intros painted s lp Hcap Hp Hc.
  - exists painted. destruct Hcap as (_ & _ & Hcan & Hall & _). auto.
  - cbn [fold_left]. inversion Hp as [| ? ? Hraw Hrest]; subst.
    destruct Hc as [Ht Hc].
    destruct (handlePointerMove_capturing painted base s lp raw Hcap Hraw Ht)
      as (painted' & Hcap').
    apply (IH painted' _ _ Hcap' Hrest).
    destruct (stabilize_passes (Some lp) raw) as (Et & _).
    destruct moves as [| m moves]; [exact I |].
    cbn [chronological] in Hc |- *. rewrite Et. exact Hc.
Qed.

End LiveCapture.

Lemma handlePointerDown_fields (options : DrawingOptions) (point : Point) (s : Pad) :
  isDrawing (handlePointerDown options point s) = true /\
  canvas (handlePointerDown options point s) = canvas s /\
  currentStroke (handlePointerDown options point s) = [point] /\
  lastPoint (handlePointerDown options point s) = Some point /\
  strokes (handlePointerDown options point s) = strokes s /\
  frames (handlePointerDown options point s) = frames s.
Proof.
  unfold handlePointerDown.
  destruct (isPencil (tool options)); [| destruct (isPenPointer (pointerType point))];
    repeat split.
Qed.

(** C3, as amended.  For options with [0 < minWidth <= maxWidth] and a
    stroke whose samples carry pressures in [0,1] and times that do not
    decrease, every width stroked while the stroke is captured lies, for
    the pen and the calligraphy tool, in
    [[min(minWidth, minWidth*0.5), maxWidth*1.5]]; for the pencil it lies
    between the initial guess [maxWidth*0.5] and the constant target
    [max(0.5, maxWidth*0.4)], whatever [minWidth] is. *)
Theorem live_width_bounds (options : DrawingOptions) (p0 : Point)
    (moves : list Point) (s0 : Pad) :
  0 < minWidth options <= maxWidth options ->
  Forall pressureInRange (p0 :: moves) ->
  chronological (p0 :: moves) ->
  exists painted,
    canvas (captureStroke options p0 moves s0) = canvas s0 ++ painted /\
    Forall (fun g => widthFloor options <= lineWidth g <= widthCeiling options)
           painted /\
    (tool options <> pencil ->
     Forall (fun g => Rmin (minWidth options) (minWidth options * 0.5)
                      <= lineWidth g <= maxWidth options * 1.5) painted).
Proof.
  intros Hw Hp Hc. inversion Hp as [| ? ? Hp0 Hrest]; subst.
  destruct (handlePointerDown_fields options p0 s0) as (Fd & Fc & Fs & Fl & _).
  assert (Hcap : capturing options [] s0 p0 (handlePointerDown options p0 s0)).
  { unfold capturing. rewrite Fd, Fc, Fs, Fl, app_nil_r.
    split; [reflexivity |].
    split; [apply initial_width_bounds; assumption |].
    split; [reflexivity |]. split; [constructor |].
    split; [exact I |]. split; [constructor; [exact Hp0 | constructor] |].
    split; [reflexivity |]. exists []. reflexivity. }
  destruct (moves_keep_bounds options Hw moves [] s0 _ p0 Hcap Hrest Hc)
    as (painted & Hcan & Hall).
  exists painted. split; [exact Hcan |]. split; [exact Hall |].
  intro Ht. revert Hall. apply Forall_impl. intro g.
  unfold widthFloor, widthCeiling.
  destruct (tool options); [tauto | contradiction | tauto].
Qed.

Lemma live_width_bounds_witness :
  exists painted,
    canvas (captureStroke defaultOptions (penAt 10 10 0.5 0)
              [penAt 20 15 0.25 8; penAt 30 25 1 16] (initialPad defaultOptions))
    = [] ++ painted /\
    Forall (fun g => widthFloor defaultOptions <= lineWidth g
                     <= widthCeiling defaultOptions) painted.
Proof.
  assert (Hw : 0 < minWidth defaultOptions <= maxWidth defaultOptions)
    by (cbn; lra).
  assert (Hp : Forall pressureInRange
                 [penAt 10 10 0.5 0; penAt 20 15 0.25 8; penAt 30 25 1 16])
    by (repeat constructor; cbn; lra).
  assert (Hc : chronological
                 [penAt 10 10 0.5 0; penAt 20 15 0.25 8; penAt 30 25 1 16])
    by (cbn; lra).
  destruct (live_width_bounds defaultOptions (penAt 10 10 0.5 0)
              [penAt 20 15 0.25 8; penAt 30 25 1 16] (initialPad defaultOptions)
              Hw Hp Hc) as (painted & H1 & H2 & _).
  exists painted. split; assumption.
Defined.

(** Evaluation of the engine on concrete samples: unfold everything down
    to real arithmetic, then settle the comparisons that are left. *)
Ltac evaluate :=
  cbv -[IZR Rmax Rmin sqrt Rlt_dec Rle_dec Req_dec_T
        Rplus Rmult Rminus Rdiv Ropp Rinv Rle Rlt].

Ltac decide_reals :=
  repeat match goal with
  | |- context [Req_dec_T ?a ?b] =>
      first [ destruct (Req_dec_T a b); [exfalso; lra |]
            | destruct (Req_dec_T a b); [| exfalso; lra] ]
  | |- context [Rlt_dec ?a ?b] =>
      first [ destruct (Rlt_dec a b); [exfalso; lra |]
            | destruct (Rlt_dec a b); [| exfalso; lra] ]
  | |- context [Rmax ?a ?b] =>
      first [rewrite (Rmax_left a b) by lra | rewrite (Rmax_right a b) by lra]
  | |- context [Rmin ?a ?b] =>
      first [rewrite (Rmin_left a b) by lra | rewrite (Rmin_right a b) by lra]
  end.

(** C3 as stated fails for the pencil, which ignores [minWidth]: with
    [minWidth = maxWidth = 1.5] the one segment of a three-sample stroke is
    stroked 0.63 wide, below [min(minWidth, minWidth*0.5) = 0.75]. *)
Lemma pencil_width_below_floor :
  0 < minWidth thinPencil <= maxWidth thinPencil /\
  exists g,
    canvas (captureStroke thinPencil (mouseAt 10 10 0)
              [mouseAt 20 15 8; mouseAt 30 25 16] (initialPad thinPencil)) = [g] /\
    lineWidth g = 0.63 /\
    ~ (Rmin (minWidth thinPencil) (minWidth thinPencil * 0.5) <= lineWidth g
       <= maxWidth thinPencil * 1.5).
Proof.
  split; [cbn; lra |].
  eexists. split; [reflexivity |].
  assert (E : forall w : R, w = 0.63 ->
            w = 0.63 /\
            ~ (Rmin (minWidth thinPencil) (minWidth thinPencil * 0.5) <= w
               <= maxWidth thinPencil * 1.5)).
  { intros w ->. split; [reflexivity |]. cbn [thinPencil minWidth maxWidth].
    rewrite Rmin_right by lra. lra. }
  apply E. evaluate. decide_reals. lra.
Qed.

(** ** C1: replay against live capture *)

(** The first tick of a replay blends with whatever width memory the pad
    holds: [animateDrawing] does not reset it. *)
Lemma replay_keeps_width_memory (options : DrawingOptions) (s : Pad)
    (p1 p2 p3 : Point) (rest : list Point) (others : list Stroke) :
  strokes s = (p1 :: p2 :: p3 :: rest) :: others ->
  map lineWidth (canvas (replay options s)) =
  [lastWidth s * smoothingFactor options
   + targetWidth options p1 p2 * (1 - smoothingFactor options)].
Proof.
  intro H. unfold replay, animateDrawing, drawNext. rewrite H.
  cbn [allStrokes strokeIdx pointIdx animOptions List.length Nat.leb nth].
  replace (Z.of_nat 0 <? Z.of_nat (S (S (S (List.length rest)))) - 1)%Z with true
    by (symmetry; apply Z.ltb_lt; lia).
  cbn [Nat.add firstn]. rewrite (drawCurve_last3 options [] p1 p2 p3).
  reflexivity.
Qed.

(** The tick at [pointIdx = length - 2] draws the window that the tick at
    [pointIdx = length - 3] has drawn already: the whole stroke. *)
Lemma drawNext_repeats_last_window (a : Animation) (s : Pad) :
  let stroke := nth (strokeIdx a) (allStrokes a) [] in
  (strokeIdx a < List.length (allStrokes a))%nat ->
  (3 <= List.length stroke)%nat ->
  (pointIdx a = List.length stroke - 3 \/ pointIdx a = List.length stroke - 2)%nat ->
  canvas (drawNext a s) = canvas (drawCurve (animOptions a) stroke s) /\
  lastWidth (drawNext a s) = lastWidth (drawCurve (animOptions a) stroke s).
Proof.
  intros stroke Hs Hl Hp. unfold drawNext. fold stroke.
  replace (List.length (allStrokes a) <=? strokeIdx a)%nat with false
    by (symmetry; apply Nat.leb_gt; exact Hs).
  replace (Z.of_nat (pointIdx a) <? Z.of_nat (List.length stroke) - 1)%Z with true
    by (symmetry; apply Z.ltb_lt; lia).
  rewrite firstn_all2 by lia. split; reflexivity.
Qed.

(** C1, evaluated where it fails.  A stroke of three pen samples is
    captured under the default options and then replayed to completion.
    The capture strokes one segment, 2.08 wide, from a width memory reset
    at pointer-down.  The replay strokes two: it starts from the memory the
    capture left behind, and its last tick draws the final window a second
    time. *)
Theorem replay_differs_from_live_capture :
  let live :=
    run (mounted defaultOptions)
        [PointerDown (penAt 10 10 0.5 0); PointerMove (penAt 20 15 0.5 8);
         PointerMove (penAt 30 25 0.5 16); PointerUp] in
  let replayed := animationFrames 3 (replay defaultOptions (snd live)) in
  List.length (strokes (snd live)) = 1%nat /\
  map lineWidth (canvas (snd live)) = [2.08] /\
  frames replayed = [] /\
  map lineWidth (canvas replayed) = [2.128; 2.1568] /\
  map controlPoint (canvas replayed) =
  map controlPoint (canvas (snd live)) ++ map controlPoint (canvas (snd live)).
Proof.
  cbv zeta. split; [reflexivity |].
  split; [evaluate; decide_reals; f_equal; lra |].
  split; [reflexivity |].
  split; [evaluate; decide_reals; repeat (f_equal; try lra) |].
  reflexivity.
Qed.

(** * Further properties of the engine *)

(** ** Capture of a stroke *)

Lemma handlePointerMove_drawing (options : DrawingOptions) (raw : Point) (s : Pad) :
  isDrawing s = true ->
  handlePointerMove options raw s =
  setLastPoint (Some (stabilize options (lastPoint s) raw))
    (setCurrentStroke (currentStroke s ++ [stabilize options (lastPoint s) raw])
       (drawCurve options (currentStroke s ++ [stabilize options (lastPoint s) raw]) s)).
Proof. intro H. unfold handlePointerMove. rewrite H. reflexivity. Qed.

Lemma handlePointerMove_fields (options : DrawingOptions) (raw : Point) (s : Pad) :
  isDrawing s = true ->
  isDrawing (handlePointerMove options raw s) = true /\
  strokes (handlePointerMove options raw s) = strokes s /\
  frames (handlePointerMove options raw s) = frames s /\
  currentStroke (handlePointerMove options raw s) =
    currentStroke s ++ [stabilize options (lastPoint s) raw] /\
  lastPoint (handlePointerMove options raw s) =
    Some (stabilize options (lastPoint s) raw).
Proof.
  intro H. rewrite handlePointerMove_drawing by exact H.
  cbn [setLastPoint setCurrentStroke isDrawing strokes frames currentStroke lastPoint].
  destruct (drawCurve_frame options
              (currentStroke s ++ [stabilize options (lastPoint s) raw]) s)
    as (F1 & _ & F3 & _ & F5).
  rewrite F1, F3, F5, H. repeat split.
Qed.

Lemma handlePointerMove_canvas_length (options : DrawingOptions) (raw : Point)
    (s : Pad) :
  isDrawing s = true ->
  List.length (canvas (handlePointerMove options raw s)) =
  (List.length (canvas s)
   + (if (2 <=? List.length (currentStroke s))%nat then 1 else 0))%nat.
Proof.
  intro H. rewrite handlePointerMove_drawing by exact H.
  cbn [setLastPoint setCurrentStroke canvas].
  set (points := currentStroke s ++ [stabilize options (lastPoint s) raw]).
  assert (Hl : List.length points = S (List.length (currentStroke s)))
    by (unfold points; rewrite length_app; cbn; lia).
  destruct (Nat.leb_spec 2 (List.length (currentStroke s))) as [H2 | H2].
  - destruct (last3_split points ltac:(lia)) as (pre & p1 & p2 & p3 & E).
    rewrite E, drawCurve_last3. cbn [stroke canvas setLastWidth].
    rewrite length_app. reflexivity.
  - rewrite drawCurve_short by lia. lia.
Qed.

Lemma moves_counts (options : DrawingOptions) (moves : list Point) (s : Pad) :
  isDrawing s = true ->
  let s' := fold_left (fun s raw => handlePointerMove options raw s) moves s in
  isDrawing s' = true /\
  strokes s' = strokes s /\
  frames s' = frames s /\
  List.length (currentStroke s') =
    (List.length (currentStroke s) + List.length moves)%nat /\
  (List.length (canvas s') + (List.length (currentStroke s) - 2) =
   List.length (canvas s) + (List.length (currentStroke s) + List.length moves - 2))%nat.
Proof.
  revert s. induction moves as [| raw moves IH]; intros s H; cbv zeta.
  - cbn [fold_left List.length]. repeat split; try assumption; lia.
  - cbn [fold_left].
    destruct (handlePointerMove_fields options raw s H) as (F1 & F2 & F3 & F4 & _).
    pose proof (handlePointerMove_canvas_length options raw s H) as Fc.
    destruct (IH _ F1) as (G1 & G2 & G3 & G4 & G5).
    rewrite F4, length_app in G4, G5. cbn [List.length] in *.
    rewrite G2, G3, F2, F3.
    repeat split; try assumption; try lia.
    destruct (Nat.leb_spec 2 (List.length (currentStroke s))); lia.
Qed.

Lemma captureStroke_fields (options : DrawingOptions) (p0 : Point)
    (moves : list Point) (s0 : Pad) :
  let s := captureStroke options p0 moves s0 in
  isDrawing s = true /\
  List.length (currentStroke s) = S (List.length moves) /\
  List.length (canvas s) = (List.length (canvas s0) + (List.length moves - 1))%nat /\
  strokes s = strokes s0 /\
  frames s = frames s0.
Proof.
  cbv zeta. unfold captureStroke.
  destruct (handlePointerDown_fields options p0 s0) as (Fd & Fc & Fs & _ & Fst & Ff).
  destruct (moves_counts options moves _ Fd) as (G1 & G2 & G3 & G4 & G5).
  rewrite Fs in G4, G5. rewrite Fc in G5. cbn [List.length] in G4, G5.
  rewrite G2, G3, Fst, Ff. repeat split; try assumption; lia.
Qed.

(** A stroke captured from a pointer-down and [k] pointer-moves stores
    [k + 1] samples and strokes [k - 1] segments: the first two samples are
    buffered without paint, every later one adds exactly one segment.  The
    committed strokes and the pending animation callbacks are untouched. *)
Theorem capture_counts (options : DrawingOptions) (p0 : Point)
    (moves : list Point) (s0 : Pad) :
  let s := captureStroke options p0 moves s0 in
  isDrawing s = true /\
  List.length (currentStroke s) = S (List.length moves) /\
  List.length (canvas s) = (List.length (canvas s0) + (List.length moves - 1))%nat /\
  strokes s = strokes s0 /\
  frames s = frames s0.
Proof. exact (captureStroke_fields options p0 moves s0). Qed.

Lemma moves_attributes (options : DrawingOptions) (moves : list Point) (s : Pad) :
  isDrawing s = true ->
  let s' := fold_left (fun s raw => handlePointerMove options raw s) moves s in
  map time (currentStroke s') = map time (currentStroke s) ++ map time moves /\
  map pressure (currentStroke s') =
    map pressure (currentStroke s) ++ map pressure moves /\
  map pointerType (currentStroke s') =
    map pointerType (currentStroke s) ++ map pointerType moves /\
  exists stored, currentStroke s' = currentStroke s ++ stored.
Proof.
  revert s. induction moves as [| raw moves IH]; intros s H; cbv zeta.
  - cbn [fold_left map]. rewrite !app_nil_r. repeat split. exists []. symmetry. apply app_nil_r.
  - cbn [fold_left].
    destruct (handlePointerMove_fields options raw s H) as (F1 & _ & _ & F4 & _).
    destruct (IH _ F1) as (G1 & G2 & G3 & stored & G4).
    destruct (stabilize_passes options (lastPoint s) raw) as (Et & Ep & Ey).
    rewrite F4 in G1, G2, G3, G4. rewrite !map_app in G1, G2, G3.
    cbn [map] in *. rewrite Et in G1. rewrite Ep in G2. rewrite Ey in G3.
    rewrite <- !app_assoc in G1, G2, G3, G4.
    repeat split; try assumption.
    eexists. exact G4.
Qed.

(** The stabilizer changes coordinates only: the stored stroke begins with
    the pointer-down sample, unfiltered, and carries the times, pressures
    and pointer types of the raw samples in their order. *)
Theorem capture_keeps_sample_attributes (options : DrawingOptions) (p0 : Point)
    (moves : list Point) (s0 : Pad) :
  let stored := currentStroke (captureStroke options p0 moves s0) in
  (exists rest, stored = p0 :: rest) /\
  map time stored = map time (p0 :: moves) /\
  map pressure stored = map pressure (p0 :: moves) /\
  map pointerType stored = map pointerType (p0 :: moves).
Proof.
  cbv zeta. unfold captureStroke.
  destruct (handlePointerDown_fields options p0 s0) as (Fd & _ & Fs & _).
  destruct (moves_attributes options moves _ Fd) as (G1 & G2 & G3 & stored & G4).
  rewrite Fs in G1, G2, G3, G4.
  split; [exists stored; exact G4 |]. repeat split; assumption.
Qed.

Lemma stabilize_off (options : DrawingOptions) (last : option Point) (raw : Point) :
  streamline options <= 0 -> stabilize options last raw = raw.
Proof.
  intro H. unfold stabilize, effectiveStreamline.
  destruct last as [lp |]; [| reflexivity].
  destruct (isPencil (tool options));
    match goal with |- context [Rlt_dec 0 ?v] => destruct (Rlt_dec 0 v) end;
    try reflexivity; lra.
Qed.

(** With the streamline at zero the stabilizer is off: the stored stroke is
    the sequence of raw samples. *)
Theorem capture_without_streamline (options : DrawingOptions) (p0 : Point)
    (moves : list Point) (s0 : Pad) :
  streamline options <= 0 ->
  currentStroke (captureStroke options p0 moves s0) = p0 :: moves.
Proof.
  intro H. unfold captureStroke.
  destruct (handlePointerDown_fields options p0 s0) as (Fd & _ & Fs & _).
  assert (G : forall moves s, isDrawing s = true ->
            currentStroke
              (fold_left (fun s raw => handlePointerMove options raw s) moves s)
            = currentStroke s ++ moves).
  { clear - H. induction moves as [| raw moves IH]; intros s Hd.
    - cbn [fold_left]. symmetry. apply app_nil_r.
    - cbn [fold_left].
      destruct (handlePointerMove_fields options raw s Hd) as (F1 & _ & _ & F4 & _).
      rewrite (IH _ F1), F4, stabilize_off by exact H.
      rewrite <- app_assoc. reflexivity. }
  rewrite (G moves _ Fd), Fs. reflexivity.
Qed.

Lemma capture_without_streamline_witness :
  currentStroke
    (captureStroke (mkOptions "#000000" 1.5 2.5 0.5 0 pen) (mouseAt 1 2 0)
       [mouseAt 3 4 5; mouseAt 5 6 9] (initialPad defaultOptions)) =
  [mouseAt 1 2 0; mouseAt 3 4 5; mouseAt 5 6 9].
Proof.
  apply capture_without_streamline. cbn. lra.
Defined.

(** With a streamline in (0,1], the point accepted on a pointer-move trails
    the raw point by the fraction [effectiveStreamline] of its gap to the
    last accepted point, on each axis, and so lies between the two. *)
Theorem stabilizer_lags_behind (options : DrawingOptions) (s : Pad)
    (raw lp : Point) :
  isDrawing s = true ->
  lastPoint s = Some lp ->
  0 < streamline options <= 1 ->
  exists q,
    lastPoint (handlePointerMove options raw s) = Some q /\
    x q - x raw = effectiveStreamline options * (x lp - x raw) /\
    y q - y raw = effectiveStreamline options * (y lp - y raw) /\
    Rmin (x lp) (x raw) <= x q <= Rmax (x lp) (x raw) /\
    Rmin (y lp) (y raw) <= y q <= Rmax (y lp) (y raw).
Proof.
  intros Hd Hl Hs.
  destruct (handlePointerMove_fields options raw s Hd) as (_ & _ & _ & _ & F5).
  rewrite Hl in F5. eexists. split; [exact F5 |].
  assert (He : 0 < effectiveStreamline options <= 1).
  { unfold effectiveStreamline. destruct (isPencil (tool options)); lra. }
  unfold stabilize. destruct (Rlt_dec 0 (effectiveStreamline options)); [| lra].
  cbn [x y]. unfold lerp.
  set (k := effectiveStreamline options) in *.
  split; [lra |]. split; [lra |].
  unfold Rmin, Rmax.
  destruct (Rle_dec (x lp) (x raw)); destruct (Rle_dec (y lp) (y raw));
    repeat split; nra.
Qed.

Lemma stabilizer_lags_behind_witness :
  exists q,
    lastPoint (handlePointerMove defaultOptions (mouseAt 20 15 8) drawingPad) = Some q /\
    x q - 20 = effectiveStreamline defaultOptions * (10 - 20).
Proof.
  assert (H : 0 < streamline defaultOptions <= 1) by (cbn; lra).
  destruct (stabilizer_lags_behind defaultOptions drawingPad (mouseAt 20 15 8)
              (mouseAt 10 10 0) eq_refl eq_refl H) as (q & H1 & H2 & _).
  exists q. split; [exact H1 | exact H2].
Defined.

(** ** Committing a stroke *)

Lemma handlePointerUp_drawing (s : Pad) :
  isDrawing s = true ->
  handlePointerUp s =
  setLastPoint None
    (setRenderedStroke []
       (setCurrentStroke []
          (setStrokes (strokes s ++ [renderedStroke s]) (setIsDrawing false s)))).
Proof. intro H. unfold handlePointerUp. rewrite H. reflexivity. Qed.

Lemma handlePointerUp_committed (s : Pad) :
  isDrawing s = true ->
  strokes (handlePointerUp s) = strokes s ++ [renderedStroke s] /\
  currentStroke (handlePointerUp s) = [] /\
  isDrawing (handlePointerUp s) = false /\
  lastPoint (handlePointerUp s) = None /\
  canvas (handlePointerUp s) = canvas s /\
  isEmpty (handlePointerUp s) = false /\
  handlePointerUp (handlePointerUp s) = handlePointerUp s.
Proof.
  intro Hd. rewrite (handlePointerUp_drawing _ Hd).
  cbn [setLastPoint setRenderedStroke setCurrentStroke setStrokes setIsDrawing
       strokes currentStroke isDrawing lastPoint canvas].
  split; [reflexivity |]. split; [reflexivity |].
  split; [reflexivity |]. split; [reflexivity |]. split; [reflexivity |].
  split; [| reflexivity].
  unfold isEmpty.
  cbn [setLastPoint setRenderedStroke setCurrentStroke setStrokes setIsDrawing
       strokes].
  rewrite length_app. cbn [List.length].
  replace (List.length (strokes s) + 1 =? 0)%nat with false
    by (symmetry; apply Nat.eqb_neq; lia).
  reflexivity.
Qed.

Lemma handlePointerDown_rendered (options : DrawingOptions) (point : Point)
    (s : Pad) :
  renderedStroke (handlePointerDown options point s) = [point].
Proof.
  unfold handlePointerDown.
  destruct (isPencil (tool options)); [| destruct (isPenPointer (pointerType point))];
    reflexivity.
Qed.

Lemma drawCurve_rendered (options : DrawingOptions) (points : list Point) (s : Pad) :
  renderedStroke (drawCurve options points s) = renderedStroke s.
Proof.
  destruct (Nat.lt_ge_cases (List.length points) 3) as [H | H].
  - rewrite drawCurve_short by exact H. reflexivity.
  - destruct (last3_split points H) as (pre & p1 & p2 & p3 & ->).
    rewrite drawCurve_last3. reflexivity.
Qed.

(** Pointer-moves change the active stroke and leave its rendered value
    behind. *)
Lemma moves_rendered (options : DrawingOptions) (moves : list Point) (s : Pad) :
  renderedStroke (fold_left (fun s raw => handlePointerMove options raw s) moves s)
  = renderedStroke s.
Proof.
  revert s. induction moves as [| raw moves IH]; intro s; [reflexivity |].
  cbn [fold_left]. rewrite IH. unfold handlePointerMove.
  destruct (isDrawing s); cbn [negb]; [| reflexivity].
  cbv zeta. cbn [setLastPoint setCurrentStroke renderedStroke].
  apply drawCurve_rendered.
Qed.

Lemma handlePointerUp_after_capture (options : DrawingOptions) (p0 : Point)
    (seen pending : list Point) (s0 : Pad) :
  let captured := captureStroke options p0 seen s0 in
  let drawn := capturePending options pending (render captured) in
  let s := handlePointerUp drawn in
  strokes s = strokes s0 ++ [currentStroke captured] /\
  List.length (currentStroke captured) = S (List.length seen) /\
  List.length (currentStroke drawn) = S (List.length seen + List.length pending) /\
  List.length (canvas drawn) =
    (List.length (canvas s0) + (List.length seen + List.length pending - 1))%nat /\
  currentStroke s = [] /\
  isDrawing s = false /\
  lastPoint s = None /\
  canvas s = canvas drawn /\
  isEmpty s = false /\
  handlePointerUp s = s.
Proof.
  cbv zeta. unfold capturePending.
  destruct (captureStroke_fields options p0 seen s0) as (Hd & Hl & Hc & Hs & _).
  set (captured := captureStroke options p0 seen s0) in *.
  assert (Hd' : isDrawing (render captured) = true) by exact Hd.
  destruct (moves_counts options pending (render captured) Hd')
    as (G1 & G2 & _ & G4 & G5).
  pose proof (moves_rendered options pending (render captured)) as Gr.
  set (drawn := fold_left (fun s raw => handlePointerMove options raw s) pending
                  (render captured)) in *.
  cbn [render setRenderedStroke strokes currentStroke canvas renderedStroke]
    in G2, G4, G5, Gr.
  destruct (handlePointerUp_committed drawn G1) as (U1 & U2 & U3 & U4 & U5 & U6 & U7).
  rewrite U1, G2, Hs, Gr.
  split; [reflexivity |]. split; [exact Hl |].
  split; [rewrite G4, Hl; lia |].
  split; [rewrite Hl in G5; lia |].
  repeat split; assumption.
Qed.

(** Pointer-up commits the active stroke as it was last rendered.  After a
    pointer-down, the moves [seen] rendered since and the moves [pending]
    not yet rendered, it appends the stroke of the pointer-down and the
    [seen] samples to the committed strokes; the [pending] samples are
    painted but not committed.  It empties the active stroke, leaves the
    canvas as painted and the pad non-empty; a pointer-leave that follows
    (or any second pointer-up) changes nothing. *)
Theorem pointer_up_commits_once (options : DrawingOptions) (p0 : Point)
    (seen pending : list Point) (s0 : Pad) :
  let captured := captureStroke options p0 seen s0 in
  let drawn := capturePending options pending (render captured) in
  let s := handlePointerUp drawn in
  strokes s = strokes s0 ++ [currentStroke captured] /\
  List.length (currentStroke captured) = S (List.length seen) /\
  List.length (currentStroke drawn) = S (List.length seen + List.length pending) /\
  List.length (canvas drawn) =
    (List.length (canvas s0) + (List.length seen + List.length pending - 1))%nat /\
  currentStroke s = [] /\
  isDrawing s = false /\
  lastPoint s = None /\
  canvas s = canvas drawn /\
  isEmpty s = false /\
  handlePointerUp s = s.
Proof. exact (handlePointerUp_after_capture options p0 seen pending s0). Qed.

(** A tap, pointer-down then pointer-up without a move, commits a stroke
    of one sample: the pad is no longer empty, yet nothing is painted and
    the vector export is the one of the strokes before. *)
Theorem tap_is_stored_but_invisible (options : DrawingOptions) (p0 : Point)
    (s0 : Pad) (dpr width height : R) :
  let s := handlePointerUp (handlePointerDown options p0 s0) in
  strokes s = strokes s0 ++ [[p0]] /\
  isEmpty s = false /\
  canvas s = canvas s0 /\
  generateSVG options dpr (strokes s) width height =
  generateSVG options dpr (strokes s0) width height.
Proof.
  cbv zeta.
  destruct (handlePointerDown_fields options p0 s0) as (Fd & Fc & _ & _ & Fst & _).
  destruct (handlePointerUp_committed _ Fd) as (H1 & _ & _ & _ & H6 & H7 & _).
  rewrite handlePointerDown_rendered, Fst in H1. rewrite Fc in H6.
  split; [exact H1 |]. split; [exact H7 |]. split; [exact H6 |].
  rewrite H1. unfold generateSVG. rewrite flat_map_app. cbn [flat_map].
  unfold strokePath at 2. cbn [List.length Nat.ltb Nat.leb].
  rewrite !app_nil_r. reflexivity.
Qed.

(** ** Geometry of the painted curve *)

Lemma windows_snoc (pre : list Point) (p1 p2 p3 : Point) :
  windows (pre ++ [p1; p2; p3]) = windows (pre ++ [p1; p2]) ++ [(p1, p2, p3)].
Proof.
  induction pre as [| a pre IH]; [reflexivity |].
  destruct pre as [| b [| c pre]]; [reflexivity | reflexivity |].
  change (windows ((a :: b :: c :: pre) ++ [p1; p2; p3]))
    with ((a, b, c) :: windows ((b :: c :: pre) ++ [p1; p2; p3])).
  change (windows ((a :: b :: c :: pre) ++ [p1; p2]))
    with ((a, b, c) :: windows ((b :: c :: pre) ++ [p1; p2])).
  rewrite IH. reflexivity.
Qed.

Lemma windows_short (l : list Point) :
  (List.length l < 3)%nat -> windows l = [].
Proof.
  destruct l as [| a [| b [| c l]]]; cbn [List.length]; intro H;
    try reflexivity; lia.
Qed.

Lemma drawCurve_geometry (options : DrawingOptions) (points : list Point)
    (painted : list Segment) (base s : Pad) :
  canvas s = canvas base ++ painted ->
  map geometryOf painted = map curveOf (windows (removelast points)) ->
  exists painted',
    canvas (drawCurve options points s) = canvas base ++ painted' /\
    map geometryOf painted' = map curveOf (windows points).
Proof.
  intros Hc Hg.
  destruct (Nat.lt_ge_cases (List.length points) 3) as [H | H].
  - rewrite drawCurve_short by exact H. exists painted. split; [exact Hc |].
    rewrite Hg, (windows_short points H).
    rewrite windows_short; [reflexivity |].
    destruct points as [| a [| b [| c l]]]; cbn in *; lia.
  - destruct (last3_split points H) as (pre & p1 & p2 & p3 & ->).
    rewrite drawCurve_last3. cbv zeta. cbn [stroke canvas setLastWidth].
    eexists. split; [rewrite Hc, <- app_assoc; reflexivity |].
    replace (removelast (pre ++ [p1; p2; p3])) with (pre ++ [p1; p2]) in Hg.
    + rewrite map_app, Hg, windows_snoc, map_app. reflexivity.
    + rewrite removelast_app by discriminate. reflexivity.
Qed.

Lemma moves_geometry (options : DrawingOptions) (moves : list Point)
    (painted : list Segment) (base s : Pad) :
  isDrawing s = true ->
  canvas s = canvas base ++ painted ->
  map geometryOf painted = map curveOf (windows (currentStroke s)) ->
  let s' := fold_left (fun s raw => handlePointerMove options raw s) moves s in
  exists painted',
    canvas s' = canvas base ++ painted' /\
    map geometryOf painted' = map curveOf (windows (currentStroke s')).
Proof.
  revert painted s. induction moves as [| raw moves IH];
    intros painted s Hd Hc Hg; cbv zeta.
  - exists painted. split; assumption.
  - cbn [fold_left].
    destruct (handlePointerMove_fields options raw s Hd) as (F1 & _ & _ & F4 & _).
    set (point := stabilize options (lastPoint s) raw) in *.
    destruct (drawCurve_geometry options (currentStroke s ++ [point]) painted base s Hc)
      as (painted' & Hc' & Hg').
    { rewrite removelast_last. exact Hg. }
    apply (IH painted' _ F1).
    + rewrite handlePointerMove_drawing by exact Hd. exact Hc'.
    + rewrite F4. exact Hg'.
Qed.

Lemma captureStroke_geometry (options : DrawingOptions) (p0 : Point)
    (moves : list Point) (s0 : Pad) :
  let s := captureStroke options p0 moves s0 in
  exists painted,
    canvas s = canvas s0 ++ painted /\
    map geometryOf painted = map curveOf (windows (currentStroke s)).
Proof.
  cbv zeta. unfold captureStroke.
  destruct (handlePointerDown_fields options p0 s0) as (Fd & Fc & Fs & _).
  apply (moves_geometry options moves [] s0 _ Fd).
  - rewrite Fc, app_nil_r. reflexivity.
  - rewrite Fs. reflexivity.
Qed.

(** The segments stroked while a stroke is captured are, in order, the
    curves over the windows of three consecutive stored samples: from the
    midpoint of the two older samples, bent at the middle sample, to the
    midpoint of the two newer ones. *)
Theorem capture_paints_stored_windows (options : DrawingOptions) (p0 : Point)
    (moves : list Point) (s0 : Pad) :
  let s := captureStroke options p0 moves s0 in
  exists painted,
    canvas s = canvas s0 ++ painted /\
    map geometryOf painted = map curveOf (windows (currentStroke s)).
Proof. exact (captureStroke_geometry options p0 moves s0). Qed.

Lemma cons_eq_inv {A : Type} (a b : A) (l m : list A) :
  a :: l = b :: m -> a = b /\ l = m.
Proof. intro H. injection H as H1 H2. split; assumption. Qed.

Lemma chained_of_windows (l : list Point) (painted : list Segment) :
  map geometryOf painted = map curveOf (windows l) -> chained painted.
Proof.
  revert painted. induction l as [| a l IH]; intros painted H.
  - destruct painted; [exact I | discriminate H].
  - destruct l as [| b [| c l]];
      try (destruct painted; [exact I | discriminate H]).
    change (windows (a :: b :: c :: l)) with ((a, b, c) :: windows (b :: c :: l)) in H.
    destruct painted as [| g painted]; [discriminate H |].
    apply cons_eq_inv in H. destruct H as [Hg Hrest].
    specialize (IH painted Hrest).
    destruct painted as [| g' painted]; [exact I |].
    split; [| exact IH].
    destruct l as [| e l]; [discriminate Hrest |].
    change (windows (b :: c :: e :: l)) with ((b, c, e) :: windows (c :: e :: l))
      in Hrest.
    apply cons_eq_inv in Hrest. destruct Hrest as [Hg' _].
    unfold geometryOf, curveOf in Hg, Hg'.
    assert (He := f_equal snd Hg). assert (Hm := f_equal (fun t => fst (fst t)) Hg').
    cbn [fst snd] in He, Hm. rewrite He, Hm. reflexivity.
Qed.

(** The curve of a captured stroke is one connected chain: every segment
    starts exactly where the segment before it ended. *)
Theorem captured_curve_is_connected (options : DrawingOptions) (p0 : Point)
    (moves : list Point) (s0 : Pad) :
  exists painted,
    canvas (captureStroke options p0 moves s0) = canvas s0 ++ painted /\
    chained painted.
Proof.
  destruct (captureStroke_geometry options p0 moves s0)
    as (painted & Hc & Hg).
  exists painted. split; [exact Hc |].
  apply (chained_of_windows _ _ Hg).
Qed.

(** ** The width model *)

(** For samples in time order, each stroked width moves from the
    remembered width towards the target by a fixed fraction: the distance
    to the target shrinks by the
    smoothing factor (0.2 for the pencil, 0.6 otherwise), so the new width
    lies between the remembered width and the target. *)
Theorem width_approaches_target (options : DrawingOptions) (s : Pad)
    (pre : list Point) (p1 p2 p3 : Point) :
  time p1 <= time p2 ->
  let s' := drawCurve options (pre ++ [p1; p2; p3]) s in
  let target := targetWidth options p1 p2 in
  lastWidth s' - target = smoothingFactor options * (lastWidth s - target) /\
  smoothingFactor options = (if isPencil (tool options) then 0.2 else 0.6) /\
  Rmin (lastWidth s) target <= lastWidth s' <= Rmax (lastWidth s) target.
Proof.
  intros _. cbv zeta. rewrite drawCurve_last3. cbv zeta.
  cbn [stroke setLastWidth lastWidth].
  pose proof (smoothingFactor_range options) as Hk.
  set (k := smoothingFactor options) in *.
  set (t := targetWidth options p1 p2). set (w := lastWidth s).
  split; [lra |]. split; [reflexivity |].
  unfold Rmin, Rmax. destruct (Rle_dec w t); split; nra.
Qed.

Lemma width_approaches_target_witness :
  smoothingFactor defaultOptions = 0.6.
Proof.
  refine (proj1 (proj2 (width_approaches_target defaultOptions
                          (initialPad defaultOptions) []
                          (mouseAt 0 0 0) (mouseAt 3 4 4) (mouseAt 5 5 9) _))).
  cbn. lra.
Defined.

(** With the pen tool and a pointer that is not a pen, the target width
    lies between [minWidth] and [maxWidth], and it reaches [minWidth] as
    soon as the velocity reaches 2.5 pixels per millisecond. *)
Theorem pen_velocity_width_range (options : DrawingOptions) (a b : Point) :
  tool options = pen ->
  isPenPointer (pointerType b) = false ->
  minWidth options <= maxWidth options ->
  time a <= time b ->
  minWidth options <= targetWidth options a b <= maxWidth options /\
  (targetWidth options a b = minWidth options \/
   getDistance a b / (time b - time a + 1) < 2.5).
Proof.
  intros Ht Hp Hw Hc.
  pose proof (velocity_nonneg a b Hc) as Hv.
  unfold targetWidth. rewrite Ht, Hp. cbv zeta.
  set (v := getDistance a b / (time b - time a + 1)) in *.
  pose proof (normalized_speed_range v 2.5 Hv ltac:(lra)) as Hn.
  split; [split; nra |].
  destruct (Rlt_dec v 2.5) as [Hlt | Hge]; [right; exact Hlt | left].
  rewrite Rmin_right by lra.
  replace (2.5 / 2.5) with 1 by (field; lra). lra.
Qed.

Lemma pen_velocity_width_range_witness :
  minWidth defaultOptions
  <= targetWidth defaultOptions (mouseAt 0 0 0) (mouseAt 3 4 4)
  <= maxWidth defaultOptions.
Proof.
  refine (proj1 (pen_velocity_width_range defaultOptions (mouseAt 0 0 0)
                   (mouseAt 3 4 4) eq_refl eq_refl _ _)); cbn; lra.
Defined.

(** A pointer that has not moved between two samples is stroked at full
    width: [maxWidth] with the pen tool, [maxWidth*1.5] with the brush. *)
Theorem resting_pointer_full_width (options : DrawingOptions) (a b : Point) :
  isPenPointer (pointerType b) = false ->
  x a = x b -> y a = y b ->
  time a <= time b ->
  targetWidth options a b =
  match tool options with
  | pen => maxWidth options
  | calligraphy => maxWidth options * 1.5
  | pencil => Rmax 0.5 (maxWidth options * 0.4)
  end.
Proof.
  intros Hp Hx Hy Hc.
  assert (Hd : getDistance a b = 0).
  { unfold getDistance. rewrite Hx, Hy.
    replace ((x b - x b) ^ 2 + (y b - y b) ^ 2) with 0 by lra. apply sqrt_0. }
  unfold targetWidth. rewrite Hp, Hd.
  replace (0 / (time b - time a + 1)) with 0 by (unfold Rdiv; lra).
  destruct (tool options); cbv zeta; try reflexivity;
    rewrite Rmin_left by lra; lra.
Qed.

Lemma resting_pointer_full_width_witness :
  targetWidth defaultOptions (mouseAt 3 4 0) (mouseAt 3 4 9) = maxWidth defaultOptions.
Proof.
  refine (resting_pointer_full_width defaultOptions (mouseAt 3 4 0) (mouseAt 3 4 9)
            eq_refl eq_refl eq_refl _).
  cbn. lra.
Defined.

(** For a pointer that is not a pen and samples in time order, a faster
    movement is never stroked wider than a slower one, whatever the tool. *)
Theorem faster_is_not_wider (options : DrawingOptions) (a b a' b' : Point) :
  isPenPointer (pointerType b) = false ->
  isPenPointer (pointerType b') = false ->
  0 < minWidth options <= maxWidth options ->
  time a <= time b -> time a' <= time b' ->
  getDistance a b / (time b - time a + 1)
  <= getDistance a' b' / (time b' - time a' + 1) ->
  targetWidth options a' b' <= targetWidth options a b.
Proof.
  intros Hp Hp' Hw _ _ Hv.
  unfold targetWidth. rewrite Hp, Hp'. cbv zeta.
  set (v := getDistance a b / (time b - time a + 1)) in *.
  set (v' := getDistance a' b' / (time b' - time a' + 1)) in *.
  assert (Hm : forall cap, 0 < cap -> Rmin v cap / cap <= Rmin v' cap / cap).
  { intros cap Hc. apply Rmult_le_compat_r.
    - left. apply Rinv_0_lt_compat. exact Hc.
    - apply Rle_min_compat_r. exact Hv. }
  destruct (tool options).
  - pose proof (Hm 2.5 ltac:(lra)). nra.
  - lra.
  - pose proof (Hm 3.5 ltac:(lra)). nra.
Qed.

Lemma faster_is_not_wider_witness :
  targetWidth defaultOptions (mouseAt 0 0 0) (mouseAt 3 4 4)
  <= targetWidth defaultOptions (mouseAt 3 4 0) (mouseAt 3 4 4).
Proof.
  refine (faster_is_not_wider defaultOptions (mouseAt 3 4 0) (mouseAt 3 4 4)
            (mouseAt 0 0 0) (mouseAt 3 4 4) eq_refl eq_refl _ _ _ _).
  - cbn. lra.
  - cbn. lra.
  - cbn. lra.
  - unfold getDistance. cbn -[sqrt pow].
    replace ((3 - 3) ^ 2 + (4 - 4) ^ 2) with 0 by lra.
    rewrite sqrt_0, sqrt_3_4. lra.
Defined.

(** For a pen pointer, a higher non-zero pressure is never stroked thinner
    than a lower one, with the pen tool (linear response) and with the
    brush (quadratic response). *)
Theorem harder_is_not_thinner (options : DrawingOptions) (a b a' b' : Point)
    (p q : R) :
  isPenPointer (pointerType b) = true ->
  isPenPointer (pointerType b') = true ->
  pressure b = Some p -> pressure b' = Some q ->
  0 < p <= q ->
  0 < minWidth options <= maxWidth options ->
  targetWidth options a b <= targetWidth options a' b'.
Proof.
  intros Hb Hb' Hp Hq Hpq Hw.
  unfold targetWidth. rewrite Hb, Hb', Hp, Hq. cbv zeta.
  rewrite !orDefault_nonzero by lra.
  destruct (tool options).
  - nra.
  - lra.
  - assert (p ^ 2 <= q ^ 2) by nra. nra.
Qed.

Lemma harder_is_not_thinner_witness :
  targetWidth defaultOptions (penAt 0 0 0.5 0) (penAt 1 1 0.25 8)
  <= targetWidth defaultOptions (penAt 0 0 0.5 0) (penAt 5 5 0.75 8).
Proof.
  refine (harder_is_not_thinner defaultOptions _ (penAt 1 1 0.25 8) _
            (penAt 5 5 0.75 8) 0.25 0.75 eq_refl eq_refl eq_refl eq_refl _ _);
    cbn; lra.
Defined.

(** A pen pointer that reports the pressure 0 is stroked like one pressing
    at 0.5, hence wider than one pressing lightly: with the pen tool the
    target at pressure 0 exceeds the target at any pressure in (0, 0.5). *)
Theorem zero_pressure_is_wider_than_light (options : DrawingOptions)
    (a b b' : Point) (q : R) :
  tool options = pen ->
  isPenPointer (pointerType b) = true ->
  isPenPointer (pointerType b') = true ->
  pressure b = Some 0 -> pressure b' = Some q ->
  0 < q < 0.5 ->
  minWidth options < maxWidth options ->
  targetWidth options a b' < targetWidth options a b.
Proof.
  intros Ht Hb Hb' Hp Hq Hr Hw.
  unfold targetWidth. rewrite Ht, Hb, Hb', Hp, Hq. cbv zeta.
  rewrite orDefault_zero, (orDefault_nonzero q) by lra.
  cbn [orDefault]. nra.
Qed.

Lemma zero_pressure_is_wider_than_light_witness :
  targetWidth defaultOptions (penAt 0 0 0.5 0) (penAt 1 1 0.25 8)
  < targetWidth defaultOptions (penAt 0 0 0.5 0) (penAt 1 1 0 8).
Proof.
  refine (zero_pressure_is_wider_than_light defaultOptions _ (penAt 1 1 0 8)
            (penAt 1 1 0.25 8) 0.25 eq_refl eq_refl eq_refl eq_refl eq_refl _ _);
    cbn; lra.
Defined.

Section PencilWidths.

Variable options : DrawingOptions.
Hypothesis pencil_tool : tool options = pencil.

Let target : R := Rmax 0.5 (maxWidth options * 0.4).
Let start : R := maxWidth options * 0.5.
Let widthAt (i : nat) : R := target + 0.2 ^ S i * (start - target).

Let settled (painted : list Segment) (base s : Pad) : Prop :=
  canvas s = canvas base ++ painted /\
  map lineWidth painted = map widthAt (seq 0 (List.length painted)) /\
  lastWidth s = target + 0.2 ^ List.length painted * (start - target).

Lemma pencil_drawCurve_settled (points : list Point) (painted : list Segment)
    (base s : Pad) :
  settled painted base s ->
  exists painted', settled painted' base (drawCurve options points s).
Proof.
  intros (Hc & Hm & Hw).
  destruct (Nat.lt_ge_cases (List.length points) 3) as [H | H].
  - rewrite drawCurve_short by exact H. exists painted. repeat split; assumption.
  - destruct (last3_split points H) as (pre & p1 & p2 & p3 & ->).
    assert (T : targetWidth options p1 p2 = target)
      by (unfold targetWidth; rewrite pencil_tool; reflexivity).
    assert (K : smoothingFactor options = 0.2)
      by (unfold smoothingFactor; rewrite pencil_tool; reflexivity).
    rewrite drawCurve_last3. cbv zeta. rewrite T, K.
    eexists (painted ++ [_]). unfold settled.
    cbn [stroke setLastWidth canvas lastWidth].
    rewrite Hc, <- app_assoc, length_app, Nat.add_1_r, seq_S, !map_app, Hm.
    cbn [map Nat.add lineWidth]. rewrite Hw.
    split; [reflexivity |]. split.
    + f_equal. f_equal. unfold widthAt. cbn [pow lineWidth]. field.
    + cbn [pow]. field.
Qed.

Lemma pencil_moves_settled (moves : list Point) (painted : list Segment)
    (base s : Pad) :
  isDrawing s = true ->
  settled painted base s ->
  exists painted',
    settled painted' base
      (fold_left (fun s raw => handlePointerMove options raw s) moves s).
Proof.
  revert painted s. induction moves as [| raw moves IH]; intros painted s Hd Hs.
  - exists painted. exact Hs.
  - cbn [fold_left].
    destruct (handlePointerMove_fields options raw s Hd) as (F1 & _).
    destruct (pencil_drawCurve_settled
                (currentStroke s ++ [stabilize options (lastPoint s) raw])
                painted base s Hs) as (painted' & Hs').
    apply (IH painted' _ F1).
    rewrite handlePointerMove_drawing by exact Hd. exact Hs'.
Qed.

(** The pencil's widths have a closed form: the [i]-th segment of a stroke
    (counting from 0) is stroked
    [T + 0.2^(i+1) * (maxWidth*0.5 - T)] wide, with
    [T = max(0.5, maxWidth*0.4)], whatever the samples are. *)
Theorem pencil_widths_closed_form (p0 : Point) (moves : list Point) (s0 : Pad) :
  exists painted,
    canvas (captureStroke options p0 moves s0) = canvas s0 ++ painted /\
    map lineWidth painted =
    map (fun i => Rmax 0.5 (maxWidth options * 0.4)
                  + 0.2 ^ S i
                    * (maxWidth options * 0.5 - Rmax 0.5 (maxWidth options * 0.4)))
        (seq 0 (List.length moves - 1)).
Proof.
  destruct (handlePointerDown_fields options p0 s0) as (Fd & Fc & _).
  assert (H0 : settled [] s0 (handlePointerDown options p0 s0)).
  { unfold settled. rewrite Fc, app_nil_r. split; [reflexivity |].
    split; [reflexivity |].
    unfold handlePointerDown. rewrite pencil_tool. cbn. unfold start. lra. }
  destruct (pencil_moves_settled moves [] s0 _ Fd H0) as (painted & Hc & Hm & _).
  exists painted. split; [exact Hc |].
  destruct (captureStroke_fields options p0 moves s0) as (_ & _ & Hl & _).
  unfold captureStroke in Hl. rewrite Hc, length_app in Hl.
  replace (List.length moves - 1)%nat with (List.length painted) by lia.
  exact Hm.
Qed.

End PencilWidths.

Lemma pencil_widths_closed_form_witness :
  exists painted,
    canvas (captureStroke pencilOptions (mouseAt 0 0 0)
              [mouseAt 1 1 5; mouseAt 2 2 9; mouseAt 3 3 14]
              (initialPad pencilOptions)) = [] ++ painted /\
    List.length (map lineWidth painted) = 2%nat.
Proof.
  destruct (pencil_widths_closed_form pencilOptions eq_refl (mouseAt 0 0 0)
              [mouseAt 1 1 5; mouseAt 2 2 9; mouseAt 3 3 14]
              (initialPad pencilOptions)) as (painted & H1 & H2).
  exists painted. split; [exact H1 |]. rewrite H2. reflexivity.
Defined.

(** ** Replay to completion *)

Lemma drawCurve_canvas_length (options : DrawingOptions) (points : list Point)
    (s : Pad) :
  List.length (canvas (drawCurve options points s)) =
  (List.length (canvas s) + (if (3 <=? List.length points)%nat then 1 else 0))%nat.
Proof.
  destruct (Nat.leb_spec 3 (List.length points)) as [H | H].
  - destruct (last3_split points H) as (pre & p1 & p2 & p3 & ->).
    rewrite drawCurve_last3. cbn [stroke canvas setLastWidth].
    apply length_app.
  - rewrite drawCurve_short by exact H. lia.
Qed.

Lemma skipn_nth_cons (ss : list Stroke) (i : nat) :
  (i < List.length ss)%nat -> skipn i ss = nth i ss [] :: skipn (S i) ss.
Proof.
  revert i. induction ss as [| st ss IH]; intros i H; cbn [List.length] in H.
  - lia.
  - destruct i as [| i]; [reflexivity |].
    cbn [skipn nth]. apply IH. lia.
Qed.

Lemma animationFrame_single (a : Animation) (s : Pad) :
  frames s = [a] -> animationFrame s = drawNext a (takeFrames s).
Proof. intro H. unfold animationFrame. rewrite H. reflexivity. Qed.

Lemma framesFrom_next_stroke (ss : list Stroke) (i : nat) :
  framesFrom ss (S i) 0 = replayFrames (skipn (S i) ss) /\
  segmentsFrom ss (S i) 0 = replaySegments (skipn (S i) ss).
Proof.
  unfold framesFrom, segmentsFrom.
  destruct (Nat.leb_spec (List.length ss) (S i)) as [H | H].
  - rewrite skipn_all2 by exact H. split; reflexivity.
  - rewrite (skipn_nth_cons ss (S i) H). cbn [replayFrames replaySegments].
    split; [lia |].
    destruct (3 <=? List.length (nth (S i) ss []))%nat; lia.
Qed.

Lemma drawNext_runs (o : DrawingOptions) (ss : list Stroke) (k : nat) :
  forall (i j : nat) (s : Pad),
    frames s = [] ->
    ((i < List.length ss)%nat -> (j <= List.length (nth i ss []) - 1)%nat) ->
    framesFrom ss i j = k ->
    frames (animationFrames k (drawNext (mkAnimation o ss i j) s)) = [] /\
    List.length (canvas (animationFrames k (drawNext (mkAnimation o ss i j) s))) =
    (List.length (canvas s) + segmentsFrom ss i j)%nat.
Proof.
  induction k as [| k IH]; intros i j s Hf Hj Hk.
  - unfold framesFrom in Hk. unfold segmentsFrom, drawNext.
    cbn [allStrokes strokeIdx pointIdx animOptions animationFrames].
    destruct (List.length ss <=? i)%nat; [| lia].
    split; [exact Hf | lia].
  - unfold framesFrom in Hk. unfold segmentsFrom.
    destruct (Nat.leb_spec (List.length ss) i) as [Hi | Hi]; [discriminate Hk |].
    specialize (Hj Hi).
    set (st := nth i ss []) in *.
    cbn [animationFrames].
    assert (E : exists a' s1,
               drawNext (mkAnimation o ss i j) s = requestAnimationFrame a' s1 /\
               frames s1 = [] /\
               ((Z.of_nat j <? Z.of_nat (List.length st) - 1)%Z = true ->
                a' = mkAnimation o ss i (j + 1) /\
                s1 = drawCurve o (firstn (j + 3) st) s) /\
               ((Z.of_nat j <? Z.of_nat (List.length st) - 1)%Z = false ->
                a' = mkAnimation o ss (i + 1) 0 /\ s1 = s)).
    { unfold drawNext. cbn [allStrokes strokeIdx pointIdx animOptions].
      replace (List.length ss <=? i)%nat with false
        by (symmetry; apply Nat.leb_gt; exact Hi).
      fold st. cbv zeta.
      destruct (Z.of_nat j <? Z.of_nat (List.length st) - 1)%Z.
      - eexists. eexists. split; [reflexivity |].
        split; [| split; [intros _; split; reflexivity | discriminate]].
        destruct (drawCurve_frame o (firstn (j + 3) st) s) as (_ & _ & _ & _ & F).
        rewrite F. exact Hf.
      - eexists. eexists. split; [reflexivity |].
        split; [exact Hf | split; [discriminate | intros _; split; reflexivity]]. }
    destruct E as (a' & s1 & E & Hf1 & Hlt & Hge). rewrite E.
    rewrite (animationFrame_single a')
      by (cbn [requestAnimationFrame frames]; rewrite Hf1; reflexivity).
    assert (Ht : takeFrames (requestAnimationFrame a' s1) = s1).
    { destruct s1. cbn in Hf1 |- *. rewrite Hf1. reflexivity. }
    rewrite Ht.
    destruct (Z.ltb_spec (Z.of_nat j) (Z.of_nat (List.length st) - 1)) as [Hc | Hc].
    + destruct (Hlt eq_refl) as [-> ->].
      assert (Hf2 : frames (drawCurve o (firstn (j + 3) st) s) = [])
        by exact Hf1.
      destruct (IH i (j + 1)%nat _ Hf2) as [R1 R2].
      * intros _. fold st. lia.
      * unfold framesFrom.
        replace (List.length ss <=? i)%nat with false
          by (symmetry; apply Nat.leb_gt; exact Hi).
        fold st. lia.
      * split; [exact R1 |]. rewrite R2, drawCurve_canvas_length.
        unfold segmentsFrom.
        replace (List.length ss <=? i)%nat with false
          by (symmetry; apply Nat.leb_gt; exact Hi).
        fold st. rewrite length_firstn.
        destruct (Nat.leb_spec 3 (List.length st));
          destruct (Nat.leb_spec 3 (Nat.min (j + 3) (List.length st))); lia.
    + destruct (Hge eq_refl) as [-> ->].
      destruct (framesFrom_next_stroke ss i) as [N1 N2].
      replace (i + 1)%nat with (S i) by lia.
      destruct (IH (S i) 0%nat s Hf) as [R1 R2].
      * intros _. lia.
      * rewrite N1. lia.
      * split; [exact R1 |]. rewrite R2, N2.
        destruct (3 <=? List.length st)%nat; lia.
Qed.

(** A replay started while no other replay is pending runs to completion:
    after one animation frame per stroke plus one per sample after the
    first, no callback is left; by then it has stroked [n - 1] segments for
    every stroke of [n >= 3] samples and none for shorter strokes, on a
    surface wiped at the start, and it has not changed the stroke store. *)
Theorem replay_runs_to_completion (options : DrawingOptions) (s : Pad) :
  frames s = [] ->
  let r := animationFrames (replayFrames (strokes s)) (replay options s) in
  frames r = [] /\
  List.length (canvas r) = replaySegments (strokes s) /\
  strokes r = strokes s /\
  currentStroke r = currentStroke s.
Proof.
  intros Hf r.
  assert (F0 : framesFrom (strokes s) 0 0 = replayFrames (strokes s) /\
               segmentsFrom (strokes s) 0 0 = replaySegments (strokes s)).
  { unfold framesFrom, segmentsFrom.
    destruct (strokes s) as [| st ss]; [split; reflexivity |].
    change (List.length (st :: ss) <=? 0)%nat with false.
    cbn [nth skipn replayFrames replaySegments].
    split; [lia |]. destruct (3 <=? List.length st)%nat; lia. }
  destruct F0 as [F1 F2].
  assert (Hj : (0 < List.length (strokes s))%nat ->
               (0 <= List.length (nth 0 (strokes s) []) - 1)%nat)
    by (intros _; apply Nat.le_0_l).
  destruct (drawNext_runs options (strokes s) (replayFrames (strokes s)) 0%nat 0%nat
              (clearRect s) Hf Hj F1) as [R1 R2].
  split; [exact R1 |]. split; [rewrite <- F2; exact R2 |].
  destruct (animationFrames_store (replayFrames (strokes s)) (replay options s))
    as [E1 E2].
  unfold r. rewrite E1, E2. unfold replay, animateDrawing. cbv zeta.
  destruct (animationFrame_fold [mkAnimation options (strokes s) 0 0] (clearRect s))
    as (G1 & G2 & _).
  cbn [fold_left] in G1, G2. rewrite G1, G2. split; reflexivity.
Qed.

Lemma replay_runs_to_completion_witness :
  frames
    (animationFrames 3
       (replay defaultOptions
          (snd (run (mounted defaultOptions)
                  [PointerDown (penAt 10 10 0.5 0); PointerMove (penAt 20 15 0.5 8);
                   PointerMove (penAt 30 25 0.5 16); PointerUp])))) = [].
Proof.
  exact (proj1 (replay_runs_to_completion defaultOptions
                  (snd (run (mounted defaultOptions)
                          [PointerDown (penAt 10 10 0.5 0);
                           PointerMove (penAt 20 15 0.5 8);
                           PointerMove (penAt 30 25 0.5 16); PointerUp]))
                  eq_refl)).
Defined.

(** ** The drawing flag in reachable states *)

(** In every reachable state the drawing flag tells whether a last accepted
    point is remembered: the pad is drawing exactly when [lastPoint] is
    set, and a pad that is not drawing has an empty active stroke. *)
Theorem drawing_flag_tracks_last_point (sys : System) :
  reachable sys ->
  (isDrawing (snd sys) = true <-> lastPoint (snd sys) <> None) /\
  (isDrawing (snd sys) = false -> currentStroke (snd sys) = []).
Proof.
  intros (options & events & ->).
  set (good := fun sys : System =>
         (isDrawing (snd sys) = true <-> lastPoint (snd sys) <> None) /\
         (isDrawing (snd sys) = false -> currentStroke (snd sys) = [])).
  assert (G : forall events start, good start -> good (fold_left step events start)).
  { clear. induction events as [| e events IH]; intros start H0; [exact H0 |].
    cbn [fold_left]. apply IH. clear IH.
    destruct start as [o s]. unfold good in *. cbn [snd] in H0.
    destruct H0 as [Hiff Hidle].
    assert (Hfold : forall l s',
               isDrawing s' = isDrawing s -> lastPoint s' = lastPoint s ->
               currentStroke s' = currentStroke s ->
               good (o, fold_left (fun s a => drawNext a s) l s')).
    { intros l s' E1 E2 E3. unfold good. cbn [snd].
      destruct (animationFrame_fold l s') as (_ & F2 & F3 & F4).
      rewrite F2, F3, F4, E1, E2, E3. split; assumption. }
    destruct e; cbn [step snd].
    - destruct (handlePointerDown_fields o point s) as (Fd & _ & _ & Fl & _).
      rewrite Fd, Fl. split; [split; [discriminate | reflexivity] | discriminate].
    - cbn [render setRenderedStroke isDrawing currentStroke lastPoint].
      destruct (isDrawing s) eqn:E.
      + destruct (handlePointerMove_fields o point s E) as (F1 & _ & _ & _ & F5).
        rewrite F1, F5. split; [split; [discriminate | reflexivity] | discriminate].
      + unfold handlePointerMove. rewrite E. cbn [negb]. rewrite E.
        split; assumption.
    - destruct (isDrawing s) eqn:E.
      + rewrite (handlePointerUp_drawing s E). cbn.
        split; [split; [discriminate | intro H; now destruct H] | reflexivity].
      + unfold handlePointerUp. rewrite E. cbn [negb]. rewrite E.
        split; assumption.
    - destruct (isDrawing s) eqn:E.
      + rewrite (handlePointerUp_drawing s E). cbn.
        split; [split; [discriminate | intro H; now destruct H] | reflexivity].
      + unfold handlePointerUp. rewrite E. cbn [negb]. rewrite E.
        split; assumption.
    - cbn. split; [exact Hiff | reflexivity].
    - unfold replay, animateDrawing. cbv zeta.
      apply (Hfold [mkAnimation o (strokes s) 0 0] (clearRect s)); reflexivity.
    - split; assumption.
    - unfold animationFrame. apply (Hfold (frames s) (takeFrames s)); reflexivity.
    - split; assumption.
    - destruct (isDrawing s) eqn:E.
      + destruct (handlePointerMove_fields o point s E) as (F1 & _ & _ & _ & F5).
        rewrite F1, F5. split; [split; [discriminate | reflexivity] | discriminate].
      + unfold handlePointerMove. rewrite E. cbn [negb]. rewrite E.
        split; assumption.
    - cbn [render setRenderedStroke isDrawing currentStroke lastPoint].
      split; assumption. }
  apply G. unfold good, mounted. cbn.
  split; [split; [discriminate | intro H; now destruct H] | reflexivity].
Qed.

Lemma drawing_flag_tracks_last_point_witness :
  isDrawing (snd (run (mounted defaultOptions)
                    [PointerDown (mouseAt 1 1 0); ClearRequest])) = true <->
  lastPoint (snd (run (mounted defaultOptions)
                    [PointerDown (mouseAt 1 1 0); ClearRequest])) <> None.
Proof.
  refine (proj1 (drawing_flag_tracks_last_point _ _)).
  exists defaultOptions, [PointerDown (mouseAt 1 1 0); ClearRequest].
  reflexivity.
Defined.

(** ** Geometry helpers *)

(** [getDistance] is a metric on the coordinates: symmetric, never
    negative, zero exactly between samples at the same place, and it
    satisfies the triangle inequality. *)
Theorem getDistance_is_a_metric (a b c : Point) :
  getDistance a b = getDistance b a /\
  0 <= getDistance a b /\
  (getDistance a b = 0 <-> x a = x b /\ y a = y b) /\
  getDistance a c <= getDistance a b + getDistance b c.
Proof.
  split; [| split; [| split]].
  - unfold getDistance. f_equal. ring.
  - apply getDistance_nonneg.
  - unfold getDistance. split.
    + intro H.
      apply sqrt_eq_0 in H;
        [| apply Rplus_le_le_0_compat; apply pow2_ge_0].
      set (dx := x a - x b) in *. set (dy := y a - y b) in *.
      assert (H' : dx * dx + dy * dy = 0) by (rewrite <- H; ring).
      assert (dx = 0) by nra. assert (dy = 0) by nra.
      unfold dx, dy in *. split; lra.
    + intros [-> ->].
      replace ((x b - x b) ^ 2 + (y b - y b) ^ 2) with 0 by ring. apply sqrt_0.
  - unfold getDistance.
    set (ux := x a - x b). set (uy := y a - y b).
    set (vx := x b - x c). set (vy := y b - y c).
    replace (x a - x c) with (ux + vx) by (unfold ux, vx; ring).
    replace (y a - y c) with (uy + vy) by (unfold uy, vy; ring).
    rewrite <- !Rsqr_pow2. unfold Rsqr.
    set (U := ux * ux + uy * uy). set (V := vx * vx + vy * vy).
    assert (HU : 0 <= U) by (unfold U; nra).
    assert (HV : 0 <= V) by (unfold V; nra).
    pose proof (sqrt_pos U) as HA. pose proof (sqrt_pos V) as HB.
    pose proof (sqrt_sqrt U HU) as EA. pose proof (sqrt_sqrt V HV) as EB.
    set (A := sqrt U) in *. set (B := sqrt V) in *.
    assert (HAB : 0 <= A * B) by nra.
    assert (Hcs : (ux * vx + uy * vy) * (ux * vx + uy * vy) <= (A * B) * (A * B)).
    { replace ((A * B) * (A * B)) with ((A * A) * (B * B)) by ring.
      rewrite EA, EB. unfold U, V.
      replace ((ux * ux + uy * uy) * (vx * vx + vy * vy))
        with ((ux * vx + uy * vy) * (ux * vx + uy * vy)
              + (ux * vy - uy * vx) * (ux * vy - uy * vx)) by ring.
      pose proof (Rle_0_sqr (ux * vy - uy * vx)) as Hs. unfold Rsqr in Hs. lra. }
    assert (Hdot : ux * vx + uy * vy <= A * B) by nra.
    rewrite <- (sqrt_square (A + B)) by lra.
    apply sqrt_le_1_alt. unfold U, V in *. nra.
Qed.

(** The helper [getVelocity] is never negative, and it is 0 unless time
    has advanced between the two samples. *)
Theorem getVelocity_never_negative (a b : Point) :
  0 <= getVelocity a b /\
  (getVelocity a b = 0 \/ 0 < time b - time a).
Proof.
  unfold getVelocity. cbv zeta.
  destruct (Rlt_dec 0 (time b - time a)) as [H | H].
  - split; [| right; exact H].
    apply Rmult_le_pos; [apply getDistance_nonneg |].
    left. apply Rinv_0_lt_compat. exact H.
  - split; [lra | left; reflexivity].
Qed.

(** The midpoint of two samples lies halfway between them in position and
    time, whichever sample comes first; its pressure is the mean of the two
    pressures (0.5 standing in for an absent or zero pressure) and stays in
    [0,1] when theirs are. *)
Theorem midpoint_is_the_mean (a b : Point) :
  pressureInRange a -> pressureInRange b ->
  x (getMidPoint a b) = (x a + x b) / 2 /\
  y (getMidPoint a b) = (y a + y b) / 2 /\
  time (getMidPoint a b) = (time a + time b) / 2 /\
  x (getMidPoint a b) = x (getMidPoint b a) /\
  y (getMidPoint a b) = y (getMidPoint b a) /\
  pressure (getMidPoint a b) =
    Some ((orDefault (pressure a) 0.5 + orDefault (pressure b) 0.5) / 2) /\
  pressureInRange (getMidPoint a b) /\
  pointerType (getMidPoint a b) = pointerType a.
Proof.
  intros Ha Hb.
  pose proof (orDefault_range _ Ha). pose proof (orDefault_range _ Hb).
  unfold getMidPoint, pressureInRange. cbn [x y time pressure pointerType].
  repeat split; try lra. f_equal. lra.
Qed.

Lemma midpoint_is_the_mean_witness :
  x (getMidPoint (penAt 10 10 0 0) (mouseAt 20 30 8)) = (10 + 20) / 2.
Proof.
  refine (proj1 (midpoint_is_the_mean (penAt 10 10 0 0) (mouseAt 20 30 8) _ _));
    unfold pressureInRange; cbn; lra.
Defined.

(** ** Coordinates and colours of the outputs *)

(** A coordinate printed with two decimals is within half a hundredth of
    the stored coordinate. *)
Theorem toFixed2_is_close (v : R) : Rabs (toFixed2 v - v) <= 0.005.
Proof.
  assert (F : forall r, 0 <= r ->
            Rabs (IZR (Int_part (r * 100 + / 2)) / 100 - r) <= 0.005).
  { intros r Hr.
    destruct (base_Int_part (r * 100 + / 2)) as [H1 H2].
    apply Rabs_le. lra. }
  unfold toFixed2. destruct (Rlt_dec v 0) as [H | H].
  - specialize (F (- v) ltac:(lra)).
    replace (- (IZR (Int_part (- v * 100 + / 2)) / 100) - v)
      with (- (IZR (Int_part (- v * 100 + / 2)) / 100 - - v)) by lra.
    rewrite Rabs_Ropp. exact F.
  - apply F. lra.
Qed.

Lemma hexDigit_range (c : ascii) (v : Z) :
  hexDigit c = Some v -> (0 <= v <= 15)%Z.
Proof.
  unfold hexDigit. cbv zeta.
  set (n := Z.of_nat (nat_of_ascii c)).
  destruct ((48 <=? n) && (n <=? 57))%Z eqn:E1;
    [| destruct ((97 <=? n) && (n <=? 102))%Z eqn:E2;
       [| destruct ((65 <=? n) && (n <=? 70))%Z eqn:E3; [| discriminate]]];
    intro H; injection H as <-;
    match goal with
    | E : (_ && _)%bool = true |- _ =>
        apply andb_prop in E; destruct E as [A B];
        apply Z.leb_le in A; apply Z.leb_le in B; lia
    end.
Qed.

(** For a colour written as [#] and six hexadecimal digits, the pencil
    strokes with [rgba(r, g, b, 0.7)] where each component is a number
    from 0 to 255: never [NaN], never out of range. *)
Theorem pencil_colour_is_three_bytes (c1 c2 c3 c4 c5 c6 : ascii)
    (v1 v2 v3 v4 v5 v6 : Z) (mn mx sm st : R) :
  hexDigit c1 = Some v1 -> hexDigit c2 = Some v2 -> hexDigit c3 = Some v3 ->
  hexDigit c4 = Some v4 -> hexDigit c5 = Some v5 -> hexDigit c6 = Some v6 ->
  exists r g b,
    curveStyle
      (mkOptions
         (String "#" (String c1 (String c2 (String c3 (String c4
            (String c5 (String c6 EmptyString)))))))
         mn mx sm st pencil) =
    CssRgba (Some r) (Some g) (Some b) 0.7 /\
    (0 <= r <= 255)%Z /\ (0 <= g <= 255)%Z /\ (0 <= b <= 255)%Z.
Proof.
  intros H1 H2 H3 H4 H5 H6.
  pose proof (hexDigit_range _ _ H1). pose proof (hexDigit_range _ _ H2).
  pose proof (hexDigit_range _ _ H3). pose proof (hexDigit_range _ _ H4).
  pose proof (hexDigit_range _ _ H5). pose proof (hexDigit_range _ _ H6).
  exists (v1 * 16 + v2)%Z, (v3 * 16 + v4)%Z, (v5 * 16 + v6)%Z.
  split; [| repeat split; lia].
  apply pencil_colour_components; assumption.
Qed.

Lemma pencil_colour_is_three_bytes_witness :
  exists r g b,
    curveStyle (mkOptions "#1a2B3c" 1.5 2.5 0.5 0.6 pencil) =
    CssRgba (Some r) (Some g) (Some b) 0.7 /\
    (0 <= r <= 255)%Z /\ (0 <= g <= 255)%Z /\ (0 <= b <= 255)%Z.
Proof.
  exact (pencil_colour_is_three_bytes "1" "a" "2" "B" "3" "c" 1 10 2 11 3 12
           1.5 2.5 0.5 0.6 eq_refl eq_refl eq_refl eq_refl eq_refl eq_refl).
Defined.

Lemma substring_beyond (n m : nat) (s : string) :
  (String.length s <= n)%nat -> String.substring n m s = EmptyString.
Proof.
  revert n. induction s as [| c s IH]; intros n H.
  - destruct n; destruct m; reflexivity.
  - destruct n as [| n]; cbn [String.length] in H; [lia |].
    cbn [String.substring]. apply IH. lia.
Qed.

(** A colour of fewer than six characters, such as the short form [#abc],
    leaves the pencil without a blue component: the third group of digits
    is empty and parses to [NaN]. *)
Theorem short_colour_has_no_blue (options : DrawingOptions) :
  tool options = pencil ->
  (String.length (color options) <= 5)%nat ->
  exists r g, curveStyle options = CssRgba r g None 0.7.
Proof.
  intros Ht Hl. unfold curveStyle, alpha. rewrite Ht. cbn [isPencil].
  unfold slice at 3. rewrite substring_beyond by exact Hl.
  eexists. eexists. reflexivity.
Qed.

Lemma short_colour_has_no_blue_witness :
  exists r g,
    curveStyle (mkOptions "#abc" 1.5 2.5 0.5 0.6 pencil) = CssRgba r g None 0.7.
Proof.
  apply short_colour_has_no_blue; [reflexivity | cbn; lia].
Defined.

(** * Properties of the application shell *)

Lemma availableFonts_length (text : App.Text) :
  List.length (App.availableFonts text) =
  if App.isKorean text then 25%nat else 31%nat.
Proof.
  unfold App.availableFonts. destruct text as [| c text]; [reflexivity |].
  cbn [List.length Nat.eqb]. destruct (App.isKorean (c :: text)); reflexivity.
Qed.

Lemma reachable_font_index (st : App.State) :
  App.reachable st ->
  (App.currentFontIndex st
   < List.length (App.availableFonts (App.textSignature st)))%nat.
Proof.
  intros (events & ->).
  assert (G : forall events st,
             (App.currentFontIndex st
              < List.length (App.availableFonts (App.textSignature st)))%nat ->
             (App.currentFontIndex (fold_left App.step events st)
              < List.length (App.availableFonts
                               (App.textSignature (fold_left App.step events st))))%nat).
  { clear. induction events as [| e events IH]; intros st H; [exact H |].
    cbn [fold_left]. apply IH. clear IH.
    assert (T : forall text,
               (App.currentFontIndex (App.setTextSignature text st)
                < List.length (App.availableFonts
                     (App.textSignature (App.setTextSignature text st))))%nat).
    { intro text. unfold App.setTextSignature.
      cbn [App.currentFontIndex App.textSignature].
      rewrite availableFonts_length in *.
      destruct (App.isKorean text); destruct (App.isKorean (App.textSignature st));
        cbn [Bool.eqb]; lia. }
    destruct e; cbn [App.step]; try exact H.
    - apply T.
    - unfold App.handleClear. destruct (App.mode st); [exact H | apply T].
    - unfold App.handleRegenerateStyle.
      cbn [App.currentFontIndex App.textSignature].
      apply Nat.mod_upper_bound. lia. }
  apply G. cbn. lia.
Qed.

(** In every reachable state of the shell, taken once the effect that
    resets the font index has run, the font index points into the list of
    available fonts: the current font is the font at that index, without
    the fallback to the first font. *)
Theorem font_index_stays_in_range (st : App.State) :
  App.reachable st ->
  (App.currentFontIndex st
   < List.length (App.availableFonts (App.textSignature st)))%nat /\
  App.currentFont st =
  nth_error (App.availableFonts (App.textSignature st)) (App.currentFontIndex st) /\
  App.currentFont st <> None.
Proof.
  intro Hr. pose proof (reachable_font_index st Hr) as G.
  split; [exact G |].
  apply nth_error_Some in G. unfold App.currentFont.
  destruct (nth_error (App.availableFonts (App.textSignature st))
              (App.currentFontIndex st)) as [f |];
    [split; [reflexivity | discriminate] | contradiction].
Qed.

Lemma font_index_stays_in_range_witness :
  (App.currentFontIndex
     (fold_left App.step
        [App.SwitchMode App.type; App.TypeText [72; 105]%N; App.NextStyle;
         App.TypeText [54620]%N] App.initialState)
   < 25)%nat.
Proof.
  refine (proj1 (font_index_stays_in_range _ _)).
  eexists. reflexivity.
Defined.

(** A text with a Korean character is never shown in an English-only
    font: whatever the font index, the current font is one of the Korean
    fonts of the table. *)
Theorem korean_text_gets_korean_font (st : App.State) :
  App.isKorean (App.textSignature st) = true ->
  exists f,
    App.currentFont st = Some f /\
    In f App.SIGNATURE_FONTS /\
    App.lang f = App.ko.
Proof.
  intro H.
  assert (E : App.availableFonts (App.textSignature st) =
              filter (fun f => App.isKo (App.lang f)) App.SIGNATURE_FONTS).
  { unfold App.availableFonts. rewrite H.
    destruct (App.textSignature st); [discriminate H | reflexivity]. }
  unfold App.currentFont. rewrite E.
  remember (filter (fun f => App.isKo (App.lang f)) App.SIGNATURE_FONTS) as kf eqn:Ek.
  assert (Hlen : List.length kf = 25%nat) by (subst kf; vm_compute; reflexivity).
  assert (K : forall f, In f kf -> In f App.SIGNATURE_FONTS /\ App.lang f = App.ko).
  { intros f Hf. rewrite Ek in Hf. apply filter_In in Hf. destruct Hf as [H1 H2].
    split; [exact H1 |]. destruct (App.lang f); [discriminate H2 | reflexivity]. }
  destruct (nth_error kf (App.currentFontIndex st)) as [f |] eqn:N.
  - exists f. split; [reflexivity |]. apply K. apply (nth_error_In _ _ N).
  - destruct kf as [| f0 rest]; [discriminate Hlen |].
    exists f0. split; [reflexivity |]. apply K. left. reflexivity.
Qed.

Lemma korean_text_gets_korean_font_witness :
  exists f,
    App.currentFont (App.mkState App.type [54620; 44544]%N 40 defaultOptions)
    = Some f /\
    In f App.SIGNATURE_FONTS /\ App.lang f = App.ko.
Proof.
  apply korean_text_gets_korean_font. reflexivity.
Defined.

Lemma next_font_differs (l : list App.FontDef) (n i : nat) :
  List.length l = n ->
  (forall i j f g, nth_error l i = Some f -> nth_error l j = Some g ->
                   App.name f = App.name g -> i = j) ->
  (2 <= n)%nat -> (i < n)%nat ->
  option_map App.name (nth_error l ((i + 1) mod n))
  <> option_map App.name (nth_error l i).
Proof.
  intros Hl Hinj Hn Hi E.
  assert (Hm : ((i + 1) mod n < n)%nat) by (apply Nat.mod_upper_bound; lia).
  destruct (nth_error l ((i + 1) mod n)) as [f |] eqn:E1;
    [| apply nth_error_None in E1; lia].
  destruct (nth_error l i) as [g |] eqn:E2;
    [| apply nth_error_None in E2; lia].
  cbn [option_map] in E. injection E as E.
  pose proof (Hinj _ _ _ _ E1 E2 E) as Heq.
  destruct (Nat.eq_dec (i + 1) n) as [Hlast | Hnot].
  - rewrite Hlast, Nat.Div0.mod_same in Heq. lia.
  - rewrite Nat.mod_small in Heq by lia. lia.
Qed.

Lemma font_names_distinct (i j : nat) (f g : App.FontDef) :
  nth_error App.SIGNATURE_FONTS i = Some f ->
  nth_error App.SIGNATURE_FONTS j = Some g ->
  App.name f = App.name g -> i = j.
Proof.
  set (names := map App.name App.SIGNATURE_FONTS).
  assert (C : forallb (fun i =>
                forallb (fun j =>
                  implb (String.eqb (nth i names EmptyString) (nth j names EmptyString))
                        (i =? j)%nat)
                  (seq 0 31)) (seq 0 31) = true) by (vm_compute; reflexivity).
  intros Hi Hj E.
  assert (Li : (i < 31)%nat)
    by (apply (proj1 (nth_error_Some App.SIGNATURE_FONTS i)); rewrite Hi; discriminate).
  assert (Lj : (j < 31)%nat)
    by (apply (proj1 (nth_error_Some App.SIGNATURE_FONTS j)); rewrite Hj; discriminate).
  assert (Ni : nth i names EmptyString = App.name f)
    by (apply nth_error_nth; unfold names; apply map_nth_error; exact Hi).
  assert (Nj : nth j names EmptyString = App.name g)
    by (apply nth_error_nth; unfold names; apply map_nth_error; exact Hj).
  rewrite forallb_forall in C.
  specialize (C i ltac:(apply in_seq; lia)).
  rewrite forallb_forall in C.
  specialize (C j ltac:(apply in_seq; lia)).
  rewrite Ni, Nj, E, String.eqb_refl in C. cbn [implb] in C.
  apply Nat.eqb_eq. exact C.
Qed.

Lemma available_names_distinct (text : App.Text) (i j : nat) (f g : App.FontDef) :
  nth_error (App.availableFonts text) i = Some f ->
  nth_error (App.availableFonts text) j = Some g ->
  App.name f = App.name g -> i = j.
Proof.
  assert (K : forall i j f g,
             nth_error (filter (fun f => App.isKo (App.lang f)) App.SIGNATURE_FONTS) i
             = Some f ->
             nth_error (filter (fun f => App.isKo (App.lang f)) App.SIGNATURE_FONTS) j
             = Some g ->
             App.name f = App.name g -> i = j).
  { assert (E : filter (fun f => App.isKo (App.lang f)) App.SIGNATURE_FONTS
                = skipn 6 App.SIGNATURE_FONTS) by reflexivity.
    rewrite E. clear. intros i j f g Hi Hj Hn.
    rewrite nth_error_skipn in Hi, Hj.
    pose proof (font_names_distinct _ _ _ _ Hi Hj Hn). lia. }
  unfold App.availableFonts.
  destruct (List.length text =? 0)%nat; [apply font_names_distinct |].
  destruct (App.isKorean text); [apply K | apply font_names_distinct].
Qed.

Lemma regenerate_iter (st : App.State) (k : nat) :
  let n := List.length (App.availableFonts (App.textSignature st)) in
  (App.currentFontIndex st < n)%nat ->
  Nat.iter k App.handleRegenerateStyle st =
  App.mkState (App.mode st) (App.textSignature st)
              ((App.currentFontIndex st + k) mod n) (App.appOptions st).
Proof.
  intros n Hi. induction k as [| k IH].
  - change (Nat.iter 0 App.handleRegenerateStyle st) with st.
    rewrite Nat.add_0_r, Nat.mod_small by exact Hi.
    destruct st; reflexivity.
  - change (Nat.iter (S k) App.handleRegenerateStyle st)
      with (App.handleRegenerateStyle (Nat.iter k App.handleRegenerateStyle st)).
    rewrite IH. unfold App.handleRegenerateStyle.
    cbn [App.mode App.textSignature App.currentFontIndex App.appOptions].
    fold n. f_equal.
    rewrite Nat.Div0.add_mod_idemp_l. f_equal. lia.
Qed.

(** "Next Style" always moves to a font with another name, and pressing
    it once per available font comes back to the font one started from. *)
Theorem next_style_cycles_through_fonts (st : App.State) :
  App.reachable st ->
  option_map App.name (App.currentFont (App.handleRegenerateStyle st))
  <> option_map App.name (App.currentFont st) /\
  Nat.iter (List.length (App.availableFonts (App.textSignature st)))
           App.handleRegenerateStyle st = st.
Proof.
  intro Hr. pose proof (reachable_font_index st Hr) as Hi.
  set (n := List.length (App.availableFonts (App.textSignature st))) in *.
  assert (Hn : (2 <= n)%nat).
  { unfold n. rewrite availableFonts_length.
    destruct (App.isKorean (App.textSignature st)); lia. }
  split.
  - assert (Hm : ((App.currentFontIndex st + 1) mod n < n)%nat)
      by (apply Nat.mod_upper_bound; lia).
    unfold App.currentFont, App.handleRegenerateStyle.
    cbn [App.textSignature App.currentFontIndex]. fold n.
    pose proof (next_font_differs (App.availableFonts (App.textSignature st)) n
                  (App.currentFontIndex st) eq_refl
                  (available_names_distinct (App.textSignature st)) Hn Hi) as D.
    destruct (nth_error (App.availableFonts (App.textSignature st))
                ((App.currentFontIndex st + 1) mod n)) as [f |] eqn:E1;
      [| apply nth_error_None in E1; fold n in E1; lia].
    destruct (nth_error (App.availableFonts (App.textSignature st))
                (App.currentFontIndex st)) as [g |] eqn:E2;
      [| apply nth_error_None in E2; fold n in E2; lia].
    exact D.
  - rewrite (regenerate_iter st n Hi). fold n.
    replace ((App.currentFontIndex st + n) mod n) with (App.currentFontIndex st).
    + destruct st; reflexivity.
    + rewrite <- Nat.Div0.add_mod_idemp_r, Nat.Div0.mod_same, Nat.add_0_r.
      symmetry. apply Nat.mod_small. exact Hi.
Qed.

Lemma next_style_cycles_through_fonts_witness :
  Nat.iter
    (List.length (App.availableFonts (App.textSignature
       (fold_left App.step [App.SwitchMode App.type; App.NextStyle] App.initialState))))
    App.handleRegenerateStyle
    (fold_left App.step [App.SwitchMode App.type; App.NextStyle] App.initialState)
  = fold_left App.step [App.SwitchMode App.type; App.NextStyle] App.initialState.
Proof.
  refine (proj2 (next_style_cycles_through_fonts _ _)).
  eexists. reflexivity.
Defined.

(** The typed signature is exported with a line width that is never
    negative; its outline is stroked exactly when that width is positive,
    and the text that is drawn is never empty. *)
Theorem text_export_outline (st : App.State) (f : App.FontDef) :
  0 <= App.exportLineWidth (App.textDownload st f) /\
  (App.stroked (App.textDownload st f) = true <->
   0 < App.exportLineWidth (App.textDownload st f)) /\
  App.filledText (App.textDownload st f) <> [].
Proof.
  unfold App.textDownload. cbv zeta.
  cbn [App.exportLineWidth App.stroked App.filledText].
  set (w := maxWidth (App.appOptions st)).
  split; [apply Rmax_l |]. split.
  - destruct (Rlt_dec 1.0 w) as [H | H].
    + rewrite Rmax_right by lra. split; [intros _; lra | reflexivity].
    + rewrite Rmax_left by lra. split; [discriminate | lra].
  - unfold App.exportedText, App.placeholder.
    destruct (App.textSignature st); discriminate.
Qed.

Lemma noWhiteSpace_app (a b : string) :
  App.noWhiteSpace (a ++ b) = (App.noWhiteSpace a && App.noWhiteSpace b)%bool.
Proof.
  induction a as [| c a IH]; [reflexivity |].
  cbn [String.append App.noWhiteSpace]. rewrite IH. apply andb_assoc.
Qed.

(** The file name of an exported typed signature contains no white space,
    whatever the name of the font: every white space of the name is
    replaced by an underscore, one for one. *)
Theorem export_file_name_has_no_space (st : App.State) (f : App.FontDef) :
  App.noWhiteSpace (App.fileName (App.textDownload st f)) = true /\
  String.length (App.replaceWhiteSpace (App.name f)) = String.length (App.name f).
Proof.
  unfold App.textDownload. cbv zeta. cbn [App.fileName].
  rewrite !noWhiteSpace_app.
  replace (App.noWhiteSpace "signature_") with true by reflexivity.
  replace (App.noWhiteSpace ".png") with true by reflexivity.
  rewrite andb_true_r. cbn [andb].
  split.
  - induction (App.name f) as [| c s IH]; [reflexivity |].
    cbn [App.replaceWhiteSpace App.noWhiteSpace]. rewrite IH, andb_true_r.
    destruct (isWhiteSpace c) eqn:E; [reflexivity | rewrite E; reflexivity].
  - induction (App.name f) as [| c s IH]; [reflexivity |].
    cbn [App.replaceWhiteSpace String.length]. rewrite IH. reflexivity.
Qed.

(** * Capture and export together *)

(** A stroke whose pointer-down was followed by at least one rendered
    move, once committed, adds exactly one path to the vector export,
    after the paths of the earlier strokes: it has one command per
    committed sample (the moves still pending at pointer-up are not among
    them) and begins with a move to the place of the pointer-down. *)
Theorem committed_stroke_exports_one_path (options : DrawingOptions) (p0 : Point)
    (seen pending : list Point) (s0 : Pad) (dpr width height : R) :
  seen <> [] ->
  let s :=
    handlePointerUp
      (capturePending options pending (render (captureStroke options p0 seen s0))) in
  exists path,
    paths (generateSVG options dpr (strokes s) width height) =
    paths (generateSVG options dpr (strokes s0) width height) ++ [path] /\
    List.length (d path) = S (List.length seen) /\
    hd_error (d path) = Some (M (toFixed2 (x p0)) (toFixed2 (y p0))).
Proof.
  intros Hm s.
  destruct (handlePointerUp_after_capture options p0 seen pending s0)
    as (Hs & Hl & _).
  destruct (handlePointerDown_fields options p0 s0) as (Fd & _ & Fs & _).
  destruct (moves_attributes options seen _ Fd) as (_ & _ & _ & rest & Hc).
  rewrite Fs in Hc. fold (captureStroke options p0 seen s0) in Hc.
  exists (pathOf options (currentStroke (captureStroke options p0 seen s0))).
  unfold s. rewrite Hs. unfold generateSVG. cbn [paths].
  rewrite flat_map_app. cbn [flat_map]. rewrite app_nil_r, strokePath_spec, Hl.
  assert (Hk : (2 <=? S (List.length seen))%nat = true).
  { apply Nat.leb_le. destruct seen; [contradiction | cbn; lia]. }
  rewrite Hk. split; [reflexivity |].
  rewrite Hc in *. cbn [app] in *. unfold pathOf.
  destruct (tool options); cbn [d List.length hd_error];
    rewrite length_map; cbn [List.length] in Hl;
    (split; [exact Hl | reflexivity]).
Qed.

Lemma committed_stroke_exports_one_path_witness :
  exists path,
    paths (generateSVG defaultOptions 2
             (strokes (handlePointerUp
                (capturePending defaultOptions [mouseAt 5 6 9]
                   (render (captureStroke defaultOptions (mouseAt 1 2 0)
                              [mouseAt 3 4 5] (initialPad defaultOptions))))))
             800 400) =
    paths (generateSVG defaultOptions 2 (strokes (initialPad defaultOptions)) 800 400)
    ++ [path] /\
    List.length (d path) = 2%nat /\
    hd_error (d path) = Some (M (toFixed2 1) (toFixed2 2)).
Proof.
  apply (committed_stroke_exports_one_path defaultOptions (mouseAt 1 2 0)
           [mouseAt 3 4 5] [mouseAt 5 6 9] (initialPad defaultOptions) 2 800 400).
  discriminate.
Defined.

(** Whatever the pad held, after [clear] it is empty and inert: [isEmpty]
    answers true, the canvas shows nothing, a second [clear] and a replay
    change nothing, and the vector export contains no path. *)
Theorem cleared_pad_is_inert (options : DrawingOptions) (s : Pad)
    (dpr width height : R) :
  isEmpty (clear s) = true /\
  canvas (clear s) = [] /\
  clear (clear s) = clear s /\
  replay options (clear s) = clear s /\
  paths (generateSVG options dpr (strokes (clear s)) width height) = [].
Proof. repeat split. Qed.
